(** * bases-kanban: the render pipeline and the view orchestrator

    A shallow embedding of [src/kanban-view/render-pipeline.ts] and of the
    render and drop logic of [src/kanban-view.ts].

    Conventions of the embedding.
    - A JavaScript [Map<string, V>] whose iteration order is observed is an
      insertion-ordered association list ([JsMap]); a [Map] or [Set] that
      is only queried is a [gmap] or a [gset].
    - Strings are [string], one character for one UTF-16 code unit:
      the model covers the text whose code units are below 256, and there
      [charCodeAt] is the code of the character. The general statements
      below do not depend on the value of a code (the arithmetic of the
      hash is stated for any list of codes); the examples are ASCII.
    - What the host application and the JavaScript runtime provide
      (column-key normalisation, coercion of a property value to a string,
      printing of numbers) is the interface [HostApi].
    - What the index functions read off the document (attachment, data
      attributes, the card and column elements below an element) is the
      interface [DomApi]. *)

From Stdlib Require Import ZArith.
From stdpp Require Import base list strings gmap pretty sorting.

Open Scope string_scope.
Open Scope list_scope.

(** ** The host interface *)

(** [getColumnKey] lives in [kanban-view/utils], [String(value)] and the
    printing of numbers belong to the runtime. All three are pure. *)
Class HostApi := {
  GroupKey : Type;
  getColumnKey : GroupKey → string;
  Value : Type;
  valueToString : Value → string;
  JsNumber : Type;
  numberToJSON : JsNumber → string;
}.

(** ** Insertion-ordered maps *)

Module JsMap.

(** The type is an abbreviation, so that the list lemmas apply as they are. *)
Abbreviation t V := (list (string * V)) (only parsing).

Definition empty {V} : t V := [].

Fixpoint get {V} (k : string) (m : t V) : option V :=
  match m with
  | [] => None
  | (k', v) :: rest => if decide (k' = k) then Some v else get k rest
  end.

Definition has {V} (k : string) (m : t V) : bool :=
  match get k m with Some _ => true | None => false end.

(** [set] overwrites in place and keeps the position of an existing key;
    a new key goes to the end. *)
Fixpoint set {V} (k : string) (v : V) (m : t V) : t V :=
  match m with
  | [] => [(k, v)]
  | (k', v') :: rest =>
      if decide (k' = k) then (k, v) :: rest else (k', v') :: set k v rest
  end.

Definition keys {V} (m : t V) : list string := m.*1.

Definition values {V} (m : t V) : list V := m.*2.

Definition size {V} (m : t V) : nat := length m.

(** A map holds each key once. *)
Definition wf {V} (m : t V) : Prop := NoDup (keys m).

End JsMap.

(** ** Runtime helpers: 32-bit arithmetic, radix 36, JSON text *)

(** [ToInt32]: wrap an integer to the signed 32-bit range. *)
Definition toInt32 (z : Z) : Z :=
  let m := (z mod 2 ^ 32)%Z in
  if (m <? 2 ^ 31)%Z then m else (m - 2 ^ 32)%Z.

(** [hash = ((hash << 5) - hash + char) | 0]. *)
Definition hashStep (hash char : Z) : Z :=
  toInt32 (toInt32 (Z.shiftl hash 5) - hash + char).

(** The character codes of a string, as [charCodeAt] reads them: one
    character of the model is one code unit, so the codes are exact for
    text whose code units are below 256 (all of ASCII); text with higher
    code units has no counterpart in the model. *)
Definition charCodes (s : string) : list Z :=
  map (λ c, Z.of_nat (Ascii.nat_of_ascii c)) (String.list_ascii_of_string s).

Definition digitChar (d : Z) : string :=
  match String.get (Z.to_nat d) "0123456789abcdefghijklmnopqrstuvwxyz" with
  | Some c => String c EmptyString
  | None => EmptyString
  end.

(** The digits of a non-negative number in radix 36; seven digits cover
    the 32-bit range. *)
Fixpoint digits36 (fuel : nat) (n : Z) : string :=
  match fuel with
  | O => EmptyString
  | S fuel' =>
      if (n <? 36)%Z then digitChar n
      else digits36 fuel' (n / 36) +:+ digitChar (n mod 36)
  end.

(** [hash.toString(36)] for a 32-bit [hash]. *)
Definition toString36 (n : Z) : string :=
  if (n <? 0)%Z then "-" +:+ digits36 7 (- n) else digits36 7 n.

Definition doubleQuote : string := String (Ascii.ascii_of_nat 34) EmptyString.
Definition backslash : string := String (Ascii.ascii_of_nat 92) EmptyString.

(** How [JSON.stringify] writes one character of a string. *)
Definition jsonEscapeChar (c : Ascii.ascii) : string :=
  let n := Ascii.nat_of_ascii c in
  if bool_decide (n = 34) then backslash +:+ doubleQuote
  else if bool_decide (n = 92) then backslash +:+ backslash
  else if bool_decide (n = 8) then backslash +:+ "b"
  else if bool_decide (n = 9) then backslash +:+ "t"
  else if bool_decide (n = 10) then backslash +:+ "n"
  else if bool_decide (n = 12) then backslash +:+ "f"
  else if bool_decide (n = 13) then backslash +:+ "r"
  else if bool_decide (n < 32) then
    backslash +:+ "u00" +:+ digitChar (Z.of_nat (n / 16))
              +:+ digitChar (Z.of_nat (n mod 16))
  else String c EmptyString.

Definition jsonString (s : string) : string :=
  doubleQuote
  +:+ String.concat EmptyString (map jsonEscapeChar (String.list_ascii_of_string s))
  +:+ doubleQuote.

Definition jsonArray (items : list string) : string :=
  "[" +:+ String.concat "," items +:+ "]".

Definition jsonField (name value : string) : string :=
  jsonString name +:+ ":" +:+ value.

(** Reading JSON text back (used to show that the text of the local-order
    map determines the map). The value of a hexadecimal digit: *)
Definition hexValue (c : Ascii.ascii) : nat :=
  let n := Ascii.nat_of_ascii c in
  if bool_decide (n < 58) then n - 48 else n - 87.

(** One character of the body of a JSON string, read back: the character
    and the text after it; [None] at the closing quote and on text that
    [JSON.stringify] does not write. *)
Definition jsonUnescapeChar (s : string) : option (Ascii.ascii * string) :=
  match s with
  | EmptyString => None
  | String c rest =>
      let n := Ascii.nat_of_ascii c in
      if bool_decide (n = 34) then None
      else if bool_decide (n = 92) then
        match rest with
        | EmptyString => None
        | String d rest =>
            let m := Ascii.nat_of_ascii d in
            if bool_decide (m = 34) then Some (d, rest)
            else if bool_decide (m = 92) then Some (d, rest)
            else if bool_decide (m = 98) then Some (Ascii.ascii_of_nat 8, rest)
            else if bool_decide (m = 116) then Some (Ascii.ascii_of_nat 9, rest)
            else if bool_decide (m = 110) then Some (Ascii.ascii_of_nat 10, rest)
            else if bool_decide (m = 102) then Some (Ascii.ascii_of_nat 12, rest)
            else if bool_decide (m = 114) then Some (Ascii.ascii_of_nat 13, rest)
            else if bool_decide (m = 117) then
              match rest with
              | String _ (String _ (String h (String l rest))) =>
                  Some (Ascii.ascii_of_nat (16 * hexValue h + hexValue l), rest)
              | _ => None
              end
            else None
        end
      else Some (c, rest)
  end.


(** ** Data model *)

Abbreviation ColumnSnapshot := (JsMap.t (list string)) (only parsing).

Section Model.
Context `{HostApi}.

Definition BasesPropertyId : Type := string.

(** A record of the data source: [entry.file.path] and [entry.getValue]. *)
Record BasesEntry := {
  file_path : string;
  getValue : BasesPropertyId → option Value;
}.

Record BasesEntryGroup := {
  key : GroupKey;
  hasKey : bool;
  entries : list BasesEntry;
}.

Record DisplaySettings := {
  cardTitleSource : string;
  cardTitleMaxLength : JsNumber;
  propertyValueSeparator : string;
  tagPropertySuffix : string;
  tagSaturation : JsNumber;
  tagLightness : JsNumber;
  tagAlpha : JsNumber;
}.

Record RenderedGroup := {
  group : BasesEntryGroup;
  rg_entries : list BasesEntry;
}.

Record PartialRenderResult := {
  canPartial : bool;
  changedColumns : list string;
}.

(** ** mergeGroupsByColumnKey *)

(** One iteration of the loop. The group stored under a key is an object
    created by the function itself; updating it in place is the same as
    storing the updated record under its key. *)
Definition mergeStep (mergedByColumnKey : JsMap.t BasesEntryGroup)
    (g : BasesEntryGroup) : JsMap.t BasesEntryGroup :=
  let columnKey := getColumnKey (key g) in
  match JsMap.get columnKey mergedByColumnKey with
  | None =>
      JsMap.set columnKey
        {| key := key g; hasKey := hasKey g; entries := entries g |}
        mergedByColumnKey
  | Some existing =>
      JsMap.set columnKey
        {| key := key existing;
           hasKey := hasKey existing || hasKey g;
           entries := entries existing ++ entries g |}
        mergedByColumnKey
  end.

Definition mergeGroupsByColumnKey (groups : list BasesEntryGroup)
    : list BasesEntryGroup :=
  JsMap.values (foldl mergeStep JsMap.empty groups).

(** The column key of a group, and the groups of a list under one key. *)
Definition columnKeyOf (g : BasesEntryGroup) : string := getColumnKey (key g).

Definition groupsWithKey (k : string) (groups : list BasesEntryGroup)
    : list BasesEntryGroup :=
  filter (λ g, columnKeyOf g = k) groups.

Definition totalEntryCount (groups : list BasesEntryGroup) : nat :=
  sum_list (map (λ g, length (entries g)) groups).

(** ** sortGroupsByColumnOrder *)

(** [orderMap.get(k)]: the map is built from the pairs (key, index) in
    order, so a later duplicate overwrites an earlier one. *)
Definition orderMapOf (columnOrder : list string) : gmap string nat :=
  foldl (λ m '(i, k), <[k := i]> m) ∅ (imap (λ i k, (i, k)) columnOrder).

(** The comparator: [None] stands for positive infinity. *)
Definition compareByOrder (orderMap : gmap string nat)
    (groupA groupB : BasesEntryGroup) : Z :=
  match orderMap !! columnKeyOf groupA, orderMap !! columnKeyOf groupB with
  | None, None => 0
  | None, Some _ => 1
  | Some _, None => -1
  | Some indexA, Some indexB => Z.of_nat indexA - Z.of_nat indexB
  end%Z.

(** [Array.prototype.sort] is stable; so is this insertion sort. *)
Fixpoint insertSorted (cmp : BasesEntryGroup → BasesEntryGroup → Z)
    (g : BasesEntryGroup) (sorted : list BasesEntryGroup)
    : list BasesEntryGroup :=
  match sorted with
  | [] => [g]
  | g' :: rest =>
      if (cmp g g' <? 0)%Z then g :: g' :: rest
      else g' :: insertSorted cmp g rest
  end.

Definition stableSort (cmp : BasesEntryGroup → BasesEntryGroup → Z)
    (groups : list BasesEntryGroup) : list BasesEntryGroup :=
  foldl (λ sorted g, insertSorted cmp g sorted) [] groups.

Definition sortGroupsByColumnOrder (groups : list BasesEntryGroup)
    (columnOrder : list string) : list BasesEntryGroup :=
  if bool_decide (length columnOrder = 0) then groups
  else stableSort (compareByOrder (orderMapOf columnOrder)) groups.

(** ** applyLocalCardOrder *)

(** [new Map(entries.map(e => [e.file.path, e]))]: the last entry of a
    path wins. *)
Definition entryMapOf (es : list BasesEntry) : gmap string BasesEntry :=
  foldl (λ m e, <[file_path e := e]> m) ∅ es.

(** The first loop: walk the saved paths, collect the entries found and
    the paths used. *)
Definition collectOrdered (entryByPath : gmap string BasesEntry)
    (orderedPaths : list string) : list BasesEntry * gset string :=
  foldl (λ '(nextEntries, usedPaths) path,
           match entryByPath !! path with
           | None => (nextEntries, usedPaths)
           | Some entry => (nextEntries ++ [entry], usedPaths ∪ {[path]})
           end)
        ([], ∅) orderedPaths.

(** The second loop: the entries whose path was not used. *)
Definition collectNew (usedPaths : gset string) (es : list BasesEntry)
    : list BasesEntry :=
  foldl (λ newEntries entry,
           if bool_decide (file_path entry ∈ usedPaths) then newEntries
           else newEntries ++ [entry])
        [] es.

Definition applyLocalCardOrder (columnKey : string) (es : list BasesEntry)
    (localOrderByColumn : JsMap.t (list string)) : list BasesEntry :=
  match JsMap.get columnKey localOrderByColumn with
  | None => es
  | Some orderedPaths =>
      if bool_decide (length orderedPaths = 0) then es
      else
        let entryByPath := entryMapOf es in
        let '(nextEntries, usedPaths) :=
          collectOrdered entryByPath orderedPaths in
        let newEntries := collectNew usedPaths es in
        (* nextEntries.unshift(...newEntries) *)
        newEntries ++ nextEntries
  end.

Definition buildRenderedGroups (orderedGroups : list BasesEntryGroup)
    (localCardOrderByColumn : JsMap.t (list string)) : list RenderedGroup :=
  map (λ g, {| group := g;
               rg_entries := applyLocalCardOrder (columnKeyOf g) (entries g)
                               localCardOrderByColumn |})
      orderedGroups.

(** ** computePropertyValuesHash *)

(** The template literal [`${entryPath}:${propertyId}=${valueStr}`]. *)
Definition propertyPart (entry : BasesEntry) (propertyId : BasesPropertyId)
    : string :=
  let valueStr :=
    match getValue entry propertyId with
    | None => "__null__"
    | Some value => valueToString value
    end in
  file_path entry +:+ ":" +:+ propertyId +:+ "=" +:+ valueStr.

(** The three nested loops pushing to [parts]. *)
Definition collectParts (groups : list BasesEntryGroup)
    (propertiesToTrack : list BasesPropertyId) : list string :=
  foldl (λ parts g,
    foldl (λ parts entry,
      foldl (λ parts propertyId, parts ++ [propertyPart entry propertyId])
            parts propertiesToTrack)
      parts (entries g))
    [] groups.

Definition computePropertyValuesHash (groups : list BasesEntryGroup)
    (propertiesToTrack : list BasesPropertyId) : string :=
  if bool_decide (length propertiesToTrack = 0) then EmptyString
  else
    let parts := collectParts groups propertiesToTrack in
    let combined := String.concat "|" parts in
    toString36 (foldl hashStep 0%Z (charCodes combined)).

(** ** computeRenderSignature *)

(** [JSON.stringify(displaySettings)]: the keys in the order of the
    type's declaration, which is the order the view builds the object in. *)
Definition stringifyDisplaySettings (d : DisplaySettings) : string :=
  "{" +:+
  String.concat ","
    [ jsonField "cardTitleSource" (jsonString (cardTitleSource d));
      jsonField "cardTitleMaxLength" (numberToJSON (cardTitleMaxLength d));
      jsonField "propertyValueSeparator"
                (jsonString (propertyValueSeparator d));
      jsonField "tagPropertySuffix" (jsonString (tagPropertySuffix d));
      jsonField "tagSaturation" (numberToJSON (tagSaturation d));
      jsonField "tagLightness" (numberToJSON (tagLightness d));
      jsonField "tagAlpha" (numberToJSON (tagAlpha d)) ]
  +:+ "}".

(** [JSON.stringify([...localCardOrderByColumn.entries()])]. *)
Definition stringifyLocalOrder (localCardOrderByColumn : JsMap.t (list string))
    : string :=
  jsonArray
    (map (λ '(k, paths), jsonArray [jsonString k;
                                    jsonArray (map jsonString paths)])
         localCardOrderByColumn).

Definition computeRenderSignature (groups : list BasesEntryGroup)
    (displaySettings : DisplaySettings)
    (localCardOrderByColumn : JsMap.t (list string))
    (selectedProperties : list BasesPropertyId)
    (groupByProperty : option BasesPropertyId) : string :=
  let groupKeys := String.concat "|" (map columnKeyOf groups) in
  let entryPaths :=
    String.concat "|"
      (concat (map (λ g, map file_path (entries g)) groups)) in
  let settingsHash := stringifyDisplaySettings displaySettings in
  let localOrderHash := stringifyLocalOrder localCardOrderByColumn in
  let propertiesToTrack :=
    filter (λ propertyId,
              propertyId ≠ "file.name" ∧ Some propertyId ≠ groupByProperty)
           selectedProperties in
  let propertyValuesHash :=
    computePropertyValuesHash groups propertiesToTrack in
  groupKeys +:+ "::" +:+ entryPaths +:+ "::" +:+ settingsHash +:+ "::" +:+
  localOrderHash +:+ "::" +:+ propertyValuesHash.

(** ** canSkipFullRender *)

Definition canSkipFullRender (currentSignature : string)
    (lastRenderSignature : option string) (hasRenderedBoard : bool) : bool :=
  if negb hasRenderedBoard || bool_decide (lastRenderSignature = None)
  then false
  else bool_decide (Some currentSignature = lastRenderSignature).

(** ** Snapshots and their diff *)

Definition computeColumnSnapshots (renderedGroups : list RenderedGroup)
    : ColumnSnapshot :=
  foldl (λ snapshots rg,
           JsMap.set (columnKeyOf (group rg))
                     (map file_path (rg_entries rg)) snapshots)
        JsMap.empty renderedGroups.

(** The inner loop over the positions of two lists of the same length. *)
Definition differsAtSomeIndex (currentPaths previousPaths : list string)
    : bool :=
  existsb (λ i, negb (bool_decide (currentPaths !! i = previousPaths !! i)))
          (seq 0 (length currentPaths)).

Definition columnChanged (previous : ColumnSnapshot) (k : string)
    (currentPaths : list string) : bool :=
  match JsMap.get k previous with
  | None => true
  | Some previousPaths =>
      if negb (bool_decide (length currentPaths = length previousPaths))
      then true
      else differsAtSomeIndex currentPaths previousPaths
  end.

Definition findChangedColumns (previous current : ColumnSnapshot)
    : list string :=
  let changed :=
    foldl (λ changed '(k, currentPaths),
             if columnChanged previous k currentPaths then changed ++ [k]
             else changed)
          [] current in
  foldl (λ changed k,
           if negb (JsMap.has k current) then changed ++ [k] else changed)
        changed (JsMap.keys previous).

(** ** canRenderPartially *)

Definition canRenderPartially (renderedGroups : list RenderedGroup)
    (lastColumnPathSnapshots : ColumnSnapshot) (hasRenderedBoard : bool)
    : PartialRenderResult :=
  if negb hasRenderedBoard
     || bool_decide (JsMap.size lastColumnPathSnapshots = 0)
  then {| canPartial := false; changedColumns := [] |}
  else
    let currentSnapshots := computeColumnSnapshots renderedGroups in
    let changed :=
      findChangedColumns lastColumnPathSnapshots currentSnapshots in
    if bool_decide (length changed = 0)
    then {| canPartial := false; changedColumns := [] |}
    else
      let boardStructureChanged :=
        negb (bool_decide (JsMap.size currentSnapshots
                           = JsMap.size lastColumnPathSnapshots))
        || existsb (λ k, negb (JsMap.has k lastColumnPathSnapshots)) changed in
      if boardStructureChanged
      then {| canPartial := false; changedColumns := [] |}
      else if bool_decide (5 < length changed)
      then {| canPartial := false; changedColumns := [] |}
      else {| canPartial := true; changedColumns := changed |}.

End Model.

(** ** The view: reorder on drop *)

Inductive Placement := Before | After.

(** [Array.prototype.indexOf]: the first position, or -1. *)
Fixpoint indexOf (x : string) (l : list string) : Z :=
  match l with
  | [] => (-1)%Z
  | y :: rest =>
      if decide (y = x) then 0%Z
      else let i := indexOf x rest in
           if (i =? -1)%Z then (-1)%Z else (i + 1)%Z
  end.

(** [l.splice(start, 0, ...items)] for [0 <= start]. *)
Definition spliceInsert (l : list string) (start : Z) (items : list string)
    : list string :=
  take (Z.to_nat start) l ++ items ++ drop (Z.to_nat start) l.

Definition reorderPathsForDrop (existingPaths movedPaths : list string)
    (targetPath : option string) (placement : Placement) : list string :=
  let movedSet : gset string := list_to_set movedPaths in
  if match targetPath with
     | Some target => bool_decide (target ∈ movedSet)
     | None => false
     end
  then existingPaths
  else
    let nextPaths := filter (λ path, path ∉ movedSet) existingPaths in
    let insertionIndex := Z.of_nat (length nextPaths) in
    let insertionIndex :=
      match targetPath with
      | Some target =>
          let targetIndex := indexOf target nextPaths in
          if negb (targetIndex =? -1)%Z
          then match placement with
               | Before => targetIndex
               | After => (targetIndex + 1)%Z
               end
          else insertionIndex
      | None => insertionIndex
      end in
    spliceInsert nextPaths insertionIndex movedPaths.

(** ** The view: render *)

Inductive RenderDecision :=
  | SkipOwnScroll
  | Skip
  | Placeholder
  | Partial (changed : list string)
  | Full.

Section View.
Context `{HostApi}.

(** [hasConfiguredGroupBy] of [kanban-view/utils]. *)
Variable hasConfiguredGroupBy : list BasesEntryGroup → bool.

(** [buildEntryIndexes], over the entry lists of the groups. *)
Definition buildEntryIndexes (groups : list (list BasesEntry))
    : gmap string BasesEntry * list string :=
  foldl (λ acc es,
    foldl (λ '(entryByPath, cardOrder) entry,
             (<[file_path entry := entry]> entryByPath,
              cardOrder ++ [file_path entry]))
          acc es)
    (∅, []) groups.

(** The fields of the view that rendering reads and writes. The
    selection and the drag controller are left out; [boardElPresent]
    says whether the root element holds a board element. *)
Record KanbanView := {
  cardOrder : list string;
  entryByPath : gmap string BasesEntry;
  viewSessionId : string;
  pendingLocalScrollRevision : option Z;
  hasRenderedBoard : bool;
  lastRenderSignature : option string;
  lastColumnPathSnapshots : ColumnSnapshot;
  boardElPresent : bool;
}.

Definition newView (sessionId : string) : KanbanView :=
  {| cardOrder := [];
     entryByPath := ∅;
     viewSessionId := sessionId;
     pendingLocalScrollRevision := None;
     hasRenderedBoard := false;
     lastRenderSignature := None;
     lastColumnPathSnapshots := JsMap.empty;
     boardElPresent := false |}.

(** What one call of [render] reads from the data source, the plugin
    settings and the persisted configuration. *)
Record RenderInput := {
  groupedData : list BasesEntryGroup;
  displaySettings : DisplaySettings;
  localCardOrderByColumn : JsMap.t (list string);
  selectedProperties : list BasesPropertyId;
  groupByProperty : option BasesPropertyId;
  columnOrder : list string;
  scrollState : option (string * Z);
}.

Definition shouldSkipRenderForOwnScrollUpdate (inp : RenderInput)
    (v : KanbanView) : KanbanView * bool :=
  match pendingLocalScrollRevision v with
  | None => (v, false)
  | Some pending =>
      match scrollState inp with
      | Some (sessionId, revision) =>
          if bool_decide (sessionId = viewSessionId v)
             && bool_decide (revision = pending)
          then ({| cardOrder := cardOrder v;
                   entryByPath := entryByPath v;
                   viewSessionId := viewSessionId v;
                   pendingLocalScrollRevision := None;
                   hasRenderedBoard := hasRenderedBoard v;
                   lastRenderSignature := lastRenderSignature v;
                   lastColumnPathSnapshots := lastColumnPathSnapshots v;
                   boardElPresent := boardElPresent v |}, true)
          else (v, false)
      | None => (v, false)
      end
  end.

(** [renderPartial]: without a board element it returns at once;
    otherwise the entry indexes and the snapshots are refreshed. *)
Definition renderPartial (renderedGroups : list RenderedGroup)
    (v : KanbanView) : KanbanView :=
  if negb (boardElPresent v) then v
  else
    let indexes := buildEntryIndexes (map rg_entries renderedGroups) in
    {| cardOrder := indexes.2;
       entryByPath := indexes.1;
       viewSessionId := viewSessionId v;
       pendingLocalScrollRevision := pendingLocalScrollRevision v;
       hasRenderedBoard := hasRenderedBoard v;
       lastRenderSignature := lastRenderSignature v;
       lastColumnPathSnapshots := computeColumnSnapshots renderedGroups;
       boardElPresent := boardElPresent v |}.

Definition render (inp : RenderInput) (v : KanbanView)
    : KanbanView * RenderDecision :=
  let rawGroups := groupedData inp in
  let groups := mergeGroupsByColumnKey rawGroups in
  let currentSignature :=
    computeRenderSignature groups (displaySettings inp)
      (localCardOrderByColumn inp) (selectedProperties inp)
      (groupByProperty inp) in
  if canSkipFullRender currentSignature (lastRenderSignature v)
       (hasRenderedBoard v)
  then (v, Skip)
  else if negb (hasConfiguredGroupBy groups) then
    let indexes := buildEntryIndexes (map entries groups) in
    ({| cardOrder := indexes.2;
        entryByPath := indexes.1;
        viewSessionId := viewSessionId v;
        pendingLocalScrollRevision := pendingLocalScrollRevision v;
        hasRenderedBoard := hasRenderedBoard v;
        lastRenderSignature := lastRenderSignature v;
        lastColumnPathSnapshots := lastColumnPathSnapshots v;
        boardElPresent := false |}, Placeholder)
  else
    let orderedGroups := sortGroupsByColumnOrder groups (columnOrder inp) in
    let renderedGroups :=
      buildRenderedGroups orderedGroups (localCardOrderByColumn inp) in
    let partial :=
      canRenderPartially renderedGroups (lastColumnPathSnapshots v)
        (hasRenderedBoard v) in
    if canPartial partial
       && bool_decide (0 < length (changedColumns partial))
    then
      let v' := renderPartial renderedGroups v in
      ({| cardOrder := cardOrder v';
          entryByPath := entryByPath v';
          viewSessionId := viewSessionId v';
          pendingLocalScrollRevision := pendingLocalScrollRevision v';
          hasRenderedBoard := hasRenderedBoard v';
          lastRenderSignature := Some currentSignature;
          lastColumnPathSnapshots := lastColumnPathSnapshots v';
          boardElPresent := boardElPresent v' |},
       Partial (changedColumns partial))
    else
      let indexes := buildEntryIndexes (map rg_entries renderedGroups) in
      ({| cardOrder := indexes.2;
          entryByPath := indexes.1;
          viewSessionId := viewSessionId v;
          pendingLocalScrollRevision := pendingLocalScrollRevision v;
          hasRenderedBoard := true;
          lastRenderSignature := Some currentSignature;
          lastColumnPathSnapshots := computeColumnSnapshots renderedGroups;
          boardElPresent := true |}, Full).

Definition onDataUpdated (inp : RenderInput) (v : KanbanView)
    : KanbanView * RenderDecision :=
  let '(v', own) := shouldSkipRenderForOwnScrollUpdate inp v in
  if own then (v', SkipOwnScroll) else render inp v'.

(** What can happen to a view: the data source notifies it, or its own
    debounced scroll save ran and recorded the revision it wrote. *)
Inductive Event :=
  | DataUpdated (inp : RenderInput)
  | ScrollSaved (revision : Z).

Definition step (v : KanbanView) (e : Event) : KanbanView :=
  match e with
  | DataUpdated inp => (onDataUpdated inp v).1
  | ScrollSaved revision =>
      {| cardOrder := cardOrder v;
         entryByPath := entryByPath v;
         viewSessionId := viewSessionId v;
         pendingLocalScrollRevision := Some revision;
         hasRenderedBoard := hasRenderedBoard v;
         lastRenderSignature := lastRenderSignature v;
         lastColumnPathSnapshots := lastColumnPathSnapshots v;
         boardElPresent := boardElPresent v |}
  end.

Definition run (v : KanbanView) (events : list Event) : KanbanView :=
  foldl step v events.

End View.

(** The keys of a list in the order of their first occurrence. *)
Fixpoint firstOccurrences (l : list string) : list string :=
  match l with
  | [] => []
  | x :: rest => x :: filter (λ y, y ≠ x) (firstOccurrences rest)
  end.

(** ** Vocabulary of the statements *)

Section Vocabulary.
Context `{HostApi}.

(** The entry a path stands for in a list: the last one carrying it. *)
Definition lastEntryWithPath (p : string) (es : list BasesEntry)
    : option BasesEntry :=
  last (filter (λ e, file_path e = p) es).

(** The saved order of a column; none and the empty one are the same. *)
Definition savedOrder (columnKey : string)
    (localOrderByColumn : JsMap.t (list string)) : list string :=
  default [] (JsMap.get columnKey localOrderByColumn).



(** What the loop of [mergeGroupsByColumnKey] has built after the groups
    [G]: the keys in the order of first occurrence, and under each key the
    merge of its groups. *)
Definition mergedUpTo (G : list BasesEntryGroup)
    (m : JsMap.t BasesEntryGroup) : Prop :=
  JsMap.keys m = firstOccurrences (map columnKeyOf G)
  ∧ ∀ k g, JsMap.get k m = Some g →
      columnKeyOf g = k
      ∧ hasKey g = existsb hasKey (groupsWithKey k G)
      ∧ entries g = concat (map entries (groupsWithKey k G)).

(** The current signature and the rendered groups of one call of
    [render], as the function computes them. *)
Definition currentSignatureOf (inp : RenderInput) : string :=
  computeRenderSignature (mergeGroupsByColumnKey (groupedData inp))
    (displaySettings inp) (localCardOrderByColumn inp)
    (selectedProperties inp) (groupByProperty inp).

Definition renderedGroupsOf (inp : RenderInput) : list RenderedGroup :=
  buildRenderedGroups
    (sortGroupsByColumnOrder (mergeGroupsByColumnKey (groupedData inp))
       (columnOrder inp))
    (localCardOrderByColumn inp).

End Vocabulary.

(** ** A concrete host and sample boards *)

Module Sample.

(** Group keys are strings or absent, and normalised as the copy of
    [getColumnKey] in the board component does; property values are
    strings, numbers are integers printed in decimal. *)
Definition host : HostApi :=
  {| GroupKey := option string;
     getColumnKey := λ groupKey,
       match groupKey with
       | None => "__bases_kanban_no_value__"
       | Some k => k
       end;
     Value := string;
     valueToString := λ v, v;
     JsNumber := Z;
     numberToJSON := λ n, pretty n |}.

#[local] Existing Instance host.

Definition entry (path : string) (tags : string) : @BasesEntry host :=
  {| file_path := path;
     getValue := λ p, if decide (p = "note.tags") then Some tags else None |}.


Definition A := entry "A.md" "x".
Definition B := entry "B.md" "y".
Definition C := entry "C.md" "z".

Definition grp (k : string) (flag : bool) (es : list (@BasesEntry host))
    : @BasesEntryGroup host :=
  {| key := Some k; hasKey := flag; entries := es |}.

Definition settings : @DisplaySettings host :=
  {| cardTitleSource := "basename";
     cardTitleMaxLength := 60%Z;
     propertyValueSeparator := ", ";
     tagPropertySuffix := "tags";
     tagSaturation := 80%Z;
     tagLightness := 60%Z;
     tagAlpha := 1%Z |}.

Definition hasConfiguredGroupBy (groups : list (@BasesEntryGroup host))
    : bool :=
  existsb hasKey groups.

Definition input (groups : list (@BasesEntryGroup host)) : @RenderInput host :=
  {| groupedData := groups;
     displaySettings := settings;
     localCardOrderByColumn := JsMap.empty;
     selectedProperties := ["file.name"; "note.status"; "note.tags"];
     groupByProperty := Some "note.status";
     columnOrder := [];
     scrollState := None |}.

(** A board of two columns, and the same board after the tags of one
    card changed. *)
Definition board1 : list (@BasesEntryGroup host) :=
  [grp "todo" true [A; B]; grp "done" true [C]].

Definition board2 : list (@BasesEntryGroup host) :=
  [grp "todo" true [entry "A.md" "x2"; B]; grp "done" true [C]].

Definition rendered1 : @KanbanView host :=
  (render hasConfiguredGroupBy (input board1) (newView "session")).1.

End Sample.

(** ** The view: card index, column drop, local order on drop *)

(** [getCardIndex]: an unknown path counts as index 0. *)
Definition getCardIndex (cardOrder : list string) (filePath : string) : Z :=
  let index := indexOf filePath cardOrder in
  if (index =? -1)%Z then 0%Z else index.

(** [l.splice(start, 1)] for [0 <= start]: the list that is left, and the
    elements that were removed. *)
Definition spliceRemove (l : list string) (start : Z)
    : list string * list string :=
  (take (Z.to_nat start) l ++ drop (S (Z.to_nat start)) l,
   take 1 (drop (Z.to_nat start) l)).

(** The second half of [handleColumnDrop], on the ordered column keys:
    [None] when the drop is aborted, otherwise the order that is saved. *)
Definition columnDropOrder (orderedKeys : list string)
    (sourceColumnKey : option string) (targetColumnKey : string)
    (placement : Placement) : option (list string) :=
  match sourceColumnKey with
  | None => None
  | Some source =>
      if bool_decide (source = targetColumnKey) then None
      else
        let sourceIndex := indexOf source orderedKeys in
        let targetIndex := indexOf targetColumnKey orderedKeys in
        if (sourceIndex =? -1)%Z || (targetIndex =? -1)%Z then None
        else
          let '(rest, moved) := spliceRemove orderedKeys sourceIndex in
          let insertionIndex :=
            match placement with
            | Before => targetIndex
            | After => (targetIndex + 1)%Z
            end in
          let insertionIndex :=
            if (sourceIndex <? insertionIndex)%Z then (insertionIndex - 1)%Z
            else insertionIndex in
          Some (spliceInsert rest insertionIndex moved)
  end.

(** The loop that drops the repeated dragged paths. *)
Definition uniqueDraggedPaths (draggedPaths : list string)
    : list string * gset string :=
  foldl (λ '(unique, movedSet) path,
           if bool_decide (path ∈ movedSet) then (unique, movedSet)
           else (unique ++ [path], movedSet ∪ {[path]}))
        ([], ∅) draggedPaths.

(** [updateLocalCardOrderForDrop]. [getColumnCardPaths] reads the paths of
    the cards of a column off the rendered board; the result is the map
    handed to [setLocalCardOrderByColumn], [None] when nothing is saved. *)
Definition updateLocalCardOrderForDrop
    (getColumnCardPaths : string → list string)
    (localOrderByColumn : JsMap.t (list string))
    (sourceColumnKey : option string) (targetColumnKey : string)
    (draggedPaths : list string) (targetPath : option string)
    (placement : Placement) : option (JsMap.t (list string)) :=
  if bool_decide (length draggedPaths = 0) then None
  else
    let '(unique, movedSet) := uniqueDraggedPaths draggedPaths in
    match sourceColumnKey with
    | Some source =>
        if bool_decide (source = targetColumnKey) then
          let currentPaths := getColumnCardPaths targetColumnKey in
          let reorderedPaths :=
            reorderPathsForDrop currentPaths unique targetPath placement in
          Some (JsMap.set targetColumnKey reorderedPaths localOrderByColumn)
        else
          let sourcePaths :=
            filter (λ path, path ∉ movedSet) (getColumnCardPaths source) in
          let targetPaths :=
            filter (λ path, path ∉ movedSet)
                   (getColumnCardPaths targetColumnKey) in
          let reorderedTargetPaths :=
            reorderPathsForDrop targetPaths unique targetPath placement in
          Some (JsMap.set targetColumnKey reorderedTargetPaths
                  (JsMap.set source sourcePaths localOrderByColumn))
    | None =>
        let currentPaths := getColumnCardPaths targetColumnKey in
        let reorderedPaths :=
          reorderPathsForDrop currentPaths unique targetPath placement in
        Some (JsMap.set targetColumnKey reorderedPaths localOrderByColumn)
    end.

Section ViewHelpers.
Context `{HostApi}.

(** [handleColumnDrop]: the keys of the merged and sorted groups, then the
    reorder. *)
Definition handleColumnDrop (groupedData : list BasesEntryGroup)
    (columnOrder : list string) (sourceColumnKey : option string)
    (targetColumnKey : string) (placement : Placement)
    : option (list string) :=
  let groups := mergeGroupsByColumnKey groupedData in
  let orderedGroups := sortGroupsByColumnOrder groups columnOrder in
  let orderedKeys := map columnKeyOf orderedGroups in
  columnDropOrder orderedKeys sourceColumnKey targetColumnKey placement.

(** The start index of the cards of each column, as [renderPartial]
    computes it before replacing columns. *)
Definition groupByKeyOf (renderedGroups : list RenderedGroup)
    : gmap string RenderedGroup :=
  foldl (λ m rg, <[columnKeyOf (group rg) := rg]> m) ∅ renderedGroups.

Definition columnCardIndexes (renderedGroups : list RenderedGroup)
    : gmap string nat :=
  let groupByKey := groupByKeyOf renderedGroups in
  (foldl (λ '(cardIndex, indexes) rg,
            let k := columnKeyOf (group rg) in
            let indexes := <[k := cardIndex]> indexes in
            match groupByKey !! k with
            | Some rg' => (cardIndex + length (rg_entries rg'), indexes)
            | None => (cardIndex, indexes)
            end)
         (0, ∅) renderedGroups).2.

End ViewHelpers.

(** ** The element indexes *)

(** What the functions read off the document: whether an element is
    attached, its [data-card-path] and [data-column-key], and the card and
    column elements below it, in document order. *)
Class DomApi := {
  Element : Type;
  isConnected : Element → bool;
  cardPathOf : Element → option string;
  columnKeyOfEl : Element → option string;
  queryCards : Element → list Element;
  queryColumns : Element → list Element;
}.

(** [Map.prototype.delete]. *)
Definition jsMapDelete {V} (k : string) (m : JsMap.t V) : JsMap.t V :=
  filter (λ kv, kv.1 ≠ k) m.

Record IndexReconciliationResult := {
  staleCardReferences : nat;
  orphanedCards : nat;
  missingColumns : list string;
  isConsistent : bool;
}.

Section Indexes.
Context `{DomApi}.

(** Index an element under a key that is a non-empty string. *)
Definition indexUnder (k : option string) (el : Element)
    (m : JsMap.t Element) : JsMap.t Element :=
  match k with
  | Some k => if bool_decide (0 < String.length k) then JsMap.set k el m else m
  | None => m
  end.

Definition addCardIndexesFromColumn (cardElByPath : JsMap.t Element)
    (columnEl : Element) : JsMap.t Element :=
  foldl (λ m cardEl, indexUnder (cardPathOf cardEl) cardEl m)
        cardElByPath (queryCards columnEl).

(** [buildElementIndexesFromDOM]: the card index and the column index. *)
Definition buildElementIndexesFromDOM (rootEl : Element)
    : JsMap.t Element * JsMap.t Element :=
  let columnElByKey :=
    foldl (λ m columnEl, indexUnder (columnKeyOfEl columnEl) columnEl m)
          JsMap.empty (queryColumns rootEl) in
  let cardElByPath :=
    foldl (λ m cardEl, indexUnder (cardPathOf cardEl) cardEl m)
          JsMap.empty (queryCards rootEl) in
  (cardElByPath, columnElByKey).

Definition clearCardIndexesForColumns (cardElByPath : JsMap.t Element)
    (columnKeys : list string) (columnElByKey : JsMap.t Element)
    : JsMap.t Element :=
  foldl (λ m columnKey,
           match JsMap.get columnKey columnElByKey with
           | None => m
           | Some columnEl =>
               foldl (λ m cardEl,
                        match cardPathOf cardEl with
                        | Some path => jsMapDelete path m
                        | None => m
                        end)
                     m (queryCards columnEl)
           end)
        cardElByPath columnKeys.

(** The first loop of [reconcileCardElementIndexes]: drop the entries whose
    element is detached or carries another path, and count them. The loop
    runs over the entries the index had when it started. *)
Definition dropStaleCards (cardElByPath : JsMap.t Element)
    : JsMap.t Element * nat :=
  foldl (λ '(m, stale) '(path, cardEl),
           if negb (isConnected cardEl) then (jsMapDelete path m, stale + 1)
           else if negb (bool_decide (cardPathOf cardEl = Some path))
           then (jsMapDelete path m, stale + 1)
           else (m, stale))
        (cardElByPath, 0) cardElByPath.

(** The second loop: the cards below the indexed columns whose path no
    entry has. *)
Definition countOrphanedCards (columnElByKey : JsMap.t Element)
    (entryPaths : gset string) : nat :=
  foldl (λ orphaned columnEl,
           foldl (λ orphaned cardEl,
                    match cardPathOf cardEl with
                    | Some path =>
                        if negb (bool_decide (path ∈ entryPaths))
                        then orphaned + 1 else orphaned
                    | None => orphaned
                    end)
                 orphaned (queryCards columnEl))
        0 (JsMap.values columnElByKey).

(** The third loop: the keys whose column element is detached. *)
Definition findMissingColumns (columnElByKey : JsMap.t Element)
    : list string :=
  foldl (λ missing columnKey,
           match JsMap.get columnKey columnElByKey with
           | None => missing ++ [columnKey]
           | Some columnEl =>
               if negb (isConnected columnEl) then missing ++ [columnKey]
               else missing
           end)
        [] (JsMap.keys columnElByKey).

(** [reconcileCardElementIndexes]: the card index as the function leaves
    it, and its report. [entryPaths] is the key set of [entryByPath]. *)
Definition reconcileCardElementIndexes (cardElByPath : JsMap.t Element)
    (columnElByKey : JsMap.t Element) (entryPaths : gset string)
    : JsMap.t Element * IndexReconciliationResult :=
  let '(cards, stale) := dropStaleCards cardElByPath in
  let orphaned := countOrphanedCards columnElByKey entryPaths in
  let missing := findMissingColumns columnElByKey in
  (cards,
   {| staleCardReferences := stale;
      orphanedCards := orphaned;
      missingColumns := missing;
      isConsistent := bool_decide (stale = 0) && bool_decide (orphaned = 0)
                      && bool_decide (length missing = 0) |}).

(** The entries that reconciling keeps: the element is attached and
    carries the path it is indexed under. *)
Definition goodEntry (kv : string * Element) : Prop :=
  isConnected kv.2 = true ∧ cardPathOf kv.2 = Some kv.1.

#[export] Instance goodEntry_dec kv : Decision (goodEntry kv).
Proof. unfold goodEntry. apply _. Defined.

End Indexes.

(** ** More vocabulary *)

(** The last position of a key in a list. *)
Definition lastIndexOf (k : string) (l : list string) : option nat :=
  last (filter (λ i, l !! i = Some k) (seq 0 (length l))).

(** The 31-polynomial of a list of character codes. *)
Definition poly31 (codes : list Z) : Z :=
  foldl (λ acc c, 31 * acc + c)%Z 0%Z codes.

Section VocabularyMore.
Context `{HostApi}.

(** The rank of a group under a column order: the last position of its
    key, or the length of the order when the key is not listed. *)
Definition orderRank (columnOrder : list string) (g : BasesEntryGroup) : nat :=
  default (length columnOrder) (lastIndexOf (columnKeyOf g) columnOrder).

(** Entries and groups that agree on the path and on the properties of a
    list. *)
Definition entryEquivOn (props : list BasesPropertyId) (e1 e2 : BasesEntry)
    : Prop :=
  file_path e1 = file_path e2 ∧ ∀ p, p ∈ props → getValue e1 p = getValue e2 p.

Definition groupEquivOn (props : list BasesPropertyId)
    (g1 g2 : BasesEntryGroup) : Prop :=
  columnKeyOf g1 = columnKeyOf g2
  ∧ Forall2 (entryEquivOn props) (entries g1) (entries g2).

(** The properties whose values enter the signature. *)
Definition trackedProperties (selectedProperties : list BasesPropertyId)
    (groupByProperty : option BasesPropertyId) : list BasesPropertyId :=
  filter (λ propertyId,
            propertyId ≠ "file.name" ∧ Some propertyId ≠ groupByProperty)
         selectedProperties.

(** The snapshot entry of a rendered group. *)
Definition snapshotOf (rg : RenderedGroup) : string * list string :=
  (columnKeyOf (group rg), map file_path (rg_entries rg)).

End VocabularyMore.

(** A sample document: an element with its attributes and the cards
    and columns below it. *)
Module SampleDom.

Inductive El :=
  | Card (connected : bool) (path : option string)
  | Column (connected : bool) (columnKey : option string)
           (cards : list (bool * option string))
  | Root (columns : list (bool * option string * list (bool * option string))).

Definition cardsOf (cards : list (bool * option string)) : list El :=
  map (λ '(connected, path), Card connected path) cards.

Definition dom : DomApi :=
  {| Element := El;
     isConnected := λ el,
       match el with
       | Card c _ | Column c _ _ => c
       | Root _ => true
       end;
     cardPathOf := λ el, match el with Card _ p => p | _ => None end;
     columnKeyOfEl := λ el, match el with Column _ k _ => k | _ => None end;
     queryCards := λ el,
       match el with
       | Card _ _ => []
       | Column _ _ cards => cardsOf cards
       | Root columns => concat (map (λ '(_, _, cards), cardsOf cards) columns)
       end;
     queryColumns := λ el,
       match el with
       | Root columns => map (λ '(c, k, cards), Column c k cards) columns
       | _ => []
       end |}.

End SampleDom.

(** More sample data: an entry that only holds a status. *)
Module SampleMore.

#[local] Existing Instance Sample.host.

Definition statusEntry (path status : string) : BasesEntry :=
  {| file_path := path;
     getValue := λ p, if decide (p = "note.status") then Some status else None |}.

(** The sample board with one more card in its first column. *)
Definition board3 : list BasesEntryGroup :=
  [Sample.grp "todo" true [Sample.A; Sample.B; Sample.entry "D.md" "w"];
   Sample.grp "done" true [Sample.C]].

(** A view that rendered the sample board and then, the grouping gone,
    the placeholder. *)
Definition afterPlaceholder : KanbanView :=
  run Sample.hasConfiguredGroupBy (newView "session")
    [DataUpdated (Sample.input Sample.board1); DataUpdated (Sample.input [])].

(** The notification that follows the view's own scroll save. *)
Definition ownScrollInput : RenderInput :=
  {| groupedData := Sample.board1;
     displaySettings := Sample.settings;
     localCardOrderByColumn := JsMap.empty;
     selectedProperties := ["file.name"; "note.status"; "note.tags"];
     groupByProperty := Some "note.status";
     columnOrder := [];
     scrollState := Some ("session", 3%Z) |}.

End SampleMore.

(** * Properties *)

(** ** Insertion-ordered maps *)

Section JsMapFacts.
Context {V : Type}.
Implicit Types (m : JsMap.t V) (k : string) (v : V).

Lemma get_None_keys k m : JsMap.get k m = None ↔ k ∉ JsMap.keys m.
Proof.
  induction m as [|[k' v'] m IH]; simpl.
  - split; [intros _; apply not_elem_of_nil | done].
  - destruct (decide (k' = k)) as [->|Hne].
    + split; [done | intros Hn; exfalso; apply Hn; left].
    + rewrite IH, not_elem_of_cons. split; [by intros ? | by intros [_ ?]].
Qed.

Lemma get_Some_elem k v m : JsMap.get k m = Some v → (k, v) ∈ m.
Proof.
  induction m as [|[k' v'] m IH]; simpl; [done|].
  destruct (decide (k' = k)) as [->|Hne].
  - intros [= ->]. left.
  - intros Hg. right. auto.
Qed.

Lemma elem_get_wf k v m : JsMap.wf m → (k, v) ∈ m → JsMap.get k m = Some v.
Proof.
  unfold JsMap.wf, JsMap.keys.
  induction m as [|[k' v'] m IH]; simpl; intros Hwf Hin.
  - by apply elem_of_nil in Hin.
  - apply NoDup_cons in Hwf as [Hk' Hwf].
    apply elem_of_cons in Hin as [[= <- <-]|Hin].
    + by rewrite decide_True.
    + destruct (decide (k' = k)) as [->|Hne]; [|auto].
      exfalso. apply Hk'. apply list_elem_of_fmap. by exists (k, v).
Qed.

Lemma has_keys k m : JsMap.has k m = true ↔ k ∈ JsMap.keys m.
Proof.
  unfold JsMap.has. destruct (JsMap.get k m) eqn:Hg.
  - split; [intros _|done]. apply dec_stable. intros Hn.
    apply get_None_keys in Hn. congruence.
  - apply get_None_keys in Hg. split; [done | by intros ?].
Qed.

Lemma has_false_keys k m : JsMap.has k m = false ↔ k ∉ JsMap.keys m.
Proof.
  rewrite <- has_keys. destruct (JsMap.has k m); [|by split].
  split; [done | by intros Hn].
Qed.

Lemma get_set_eq k v m : JsMap.get k (JsMap.set k v m) = Some v.
Proof.
  induction m as [|[k' v'] m IH]; simpl.
  - by rewrite decide_True.
  - destruct (decide (k' = k)) as [->|Hne]; simpl.
    + by rewrite decide_True.
    + by rewrite decide_False.
Qed.

Lemma get_set_ne k k' v m :
  k ≠ k' → JsMap.get k' (JsMap.set k v m) = JsMap.get k' m.
Proof.
  intros Hne. induction m as [|[k0 v0] m IH]; simpl.
  - by rewrite decide_False.
  - destruct (decide (k0 = k)) as [->|Hne0]; simpl.
    + by rewrite !decide_False.
    + by rewrite IH.
Qed.

Lemma keys_set_present k v m :
  k ∈ JsMap.keys m → JsMap.keys (JsMap.set k v m) = JsMap.keys m.
Proof.
  unfold JsMap.keys. induction m as [|[k' v'] m IH]; csimpl; intros Hin.
  - by apply elem_of_nil in Hin.
  - destruct (decide (k' = k)) as [->|Hne]; csimpl; [done|].
    apply elem_of_cons in Hin as [?|Hin]; [congruence|]. by rewrite IH.
Qed.

Lemma set_absent k v m :
  k ∉ JsMap.keys m → JsMap.set k v m = m ++ [(k, v)].
Proof.
  unfold JsMap.keys. induction m as [|[k' v'] m IH]; csimpl; intros Hn; [done|].
  apply not_elem_of_cons in Hn as [Hne Hn].
  rewrite decide_False by done. by rewrite IH.
Qed.

Lemma wf_set k v m : JsMap.wf m → JsMap.wf (JsMap.set k v m).
Proof.
  unfold JsMap.wf. intros Hwf.
  destruct (decide (k ∈ JsMap.keys m)) as [Hin|Hn].
  - by rewrite keys_set_present.
  - rewrite set_absent by done. unfold JsMap.keys in *.
    rewrite fmap_app. simpl. apply NoDup_app. split_and!; [done| |].
    + intros x Hx ->%list_elem_of_singleton. done.
    + apply NoDup_singleton.
Qed.

Lemma size_keys m : JsMap.size m = length (JsMap.keys m).
Proof. unfold JsMap.size, JsMap.keys. by rewrite length_fmap. Qed.

End JsMapFacts.

(** ** First occurrences *)

Lemma firstOccurrences_elem x l : x ∈ firstOccurrences l ↔ x ∈ l.
Proof.
  induction l as [|y l IH]; simpl; [done|].
  rewrite !elem_of_cons, list_elem_of_filter, IH.
  destruct (decide (x = y)); tauto.
Qed.

Lemma firstOccurrences_NoDup l : NoDup (firstOccurrences l).
Proof.
  induction l as [|y l IH]; simpl; [apply NoDup_nil_2|].
  apply NoDup_cons. split.
  - rewrite list_elem_of_filter. tauto.
  - by apply NoDup_filter.
Qed.

Lemma firstOccurrences_snoc l x :
  firstOccurrences (l ++ [x])
  = if decide (x ∈ l) then firstOccurrences l else firstOccurrences l ++ [x].
Proof.
  induction l as [|y l IH]; cbn [firstOccurrences app].
  - destruct (decide (x ∈ [])) as [Hin|_]; [|done].
    by apply elem_of_nil in Hin.
  - rewrite IH. destruct (decide (x = y)) as [->|Hne].
    + destruct (decide (y ∈ y :: l)) as [_|Hn]; [|exfalso; apply Hn; left].
      destruct (decide (y ∈ l)); [done|].
      rewrite filter_app, (filter_cons_False _ y) by tauto.
      by rewrite app_nil_r.
    + destruct (decide (x ∈ l)) as [Hin|Hn].
      * destruct (decide (x ∈ y :: l)) as [_|Hn]; [done|].
        exfalso. apply Hn. by right.
      * destruct (decide (x ∈ y :: l)) as [Hin|_].
        { apply elem_of_cons in Hin as [?|?]; done. }
        by rewrite filter_app, (filter_cons_True _ x).
Qed.

(** ** mergeGroupsByColumnKey *)

Section Merge.
Context `{HostApi}.
Implicit Types (g : BasesEntryGroup) (G : list BasesEntryGroup).

Lemma groupsWithKey_snoc k G g :
  groupsWithKey k (G ++ [g])
  = groupsWithKey k G ++ (if decide (columnKeyOf g = k) then [g] else []).
Proof.
  unfold groupsWithKey. rewrite filter_app.
  destruct (decide (columnKeyOf g = k)).
  - by rewrite (filter_cons_True _ g).
  - by rewrite (filter_cons_False _ g).
Qed.

Lemma groupsWithKey_absent k G :
  k ∉ map columnKeyOf G → groupsWithKey k G = [].
Proof.
  unfold groupsWithKey. induction G as [|g G IH]; simpl; intros Hn; [done|].
  apply not_elem_of_cons in Hn as [Hne Hn].
  rewrite filter_cons_False by congruence. auto.
Qed.

Lemma mergedUpTo_nil : mergedUpTo [] JsMap.empty.
Proof. split; [done | intros k g [=]]. Qed.

Lemma mergedUpTo_step G m g :
  mergedUpTo G m → mergedUpTo (G ++ [g]) (mergeStep m g).
Proof.
  intros [Hkeys Hvals]. unfold mergeStep.
  set (kx := getColumnKey (key g)).
  assert (Hsnoc : firstOccurrences (map columnKeyOf (G ++ [g]))
    = if decide (kx ∈ map columnKeyOf G)
      then firstOccurrences (map columnKeyOf G)
      else firstOccurrences (map columnKeyOf G) ++ [kx]).
  { rewrite map_app. simpl. apply firstOccurrences_snoc. }
  destruct (JsMap.get kx m) as [existing|] eqn:Hget.
  - assert (Hin : kx ∈ JsMap.keys m).
    { apply dec_stable. intros Hn. apply get_None_keys in Hn. congruence. }
    assert (HinG : kx ∈ map columnKeyOf G).
    { by rewrite Hkeys, firstOccurrences_elem in Hin. }
    split.
    + rewrite keys_set_present by done. rewrite Hsnoc, decide_True; done.
    + intros k g'. destruct (decide (kx = k)) as [<-|Hne].
      * rewrite get_set_eq. intros [= <-].
        destruct (Hvals _ _ Hget) as (Hk & Hh & He). simpl.
        rewrite groupsWithKey_snoc, decide_True by done.
        split_and!; [done | |].
        -- rewrite existsb_app, Hh. simpl. by rewrite orb_false_r.
        -- rewrite map_app, concat_app, He. simpl. by rewrite app_nil_r.
      * rewrite get_set_ne by done. intros Hg.
        destruct (Hvals _ _ Hg) as (Hk & Hh & He).
        rewrite groupsWithKey_snoc, decide_False, app_nil_r; done.
  - assert (Hn : kx ∉ JsMap.keys m) by by apply get_None_keys.
    assert (HnG : kx ∉ map columnKeyOf G).
    { rewrite Hkeys in Hn. by rewrite firstOccurrences_elem in Hn. }
    split.
    + rewrite set_absent by done. unfold JsMap.keys in *.
      rewrite fmap_app, Hkeys, Hsnoc, decide_False; done.
    + intros k g'. destruct (decide (kx = k)) as [<-|Hne].
      * rewrite get_set_eq. intros [= <-]. simpl.
        rewrite groupsWithKey_snoc, decide_True by done.
        rewrite groupsWithKey_absent by done. simpl.
        by rewrite orb_false_r, app_nil_r.
      * rewrite get_set_ne by done. intros Hg.
        destruct (Hvals _ _ Hg) as (Hk & Hh & He).
        rewrite groupsWithKey_snoc, decide_False, app_nil_r; done.
Qed.

Lemma mergedUpTo_foldl G : mergedUpTo G (foldl mergeStep JsMap.empty G).
Proof.
  induction G as [|g G IH] using rev_ind; [apply mergedUpTo_nil|].
  rewrite foldl_app. simpl. by apply mergedUpTo_step.
Qed.

Lemma totalEntryCount_set k g (m : JsMap.t BasesEntryGroup) :
  totalEntryCount (JsMap.values (JsMap.set k g m))
  + from_option (λ e, length (entries e)) 0 (JsMap.get k m)
  = totalEntryCount (JsMap.values m) + length (entries g).
Proof.
  unfold JsMap.values, totalEntryCount.
  induction m as [|[k' g'] m IH]; csimpl; [lia|].
  destruct (decide (k' = k)) as [->|Hne]; csimpl; lia.
Qed.

Lemma totalEntryCount_step (m : JsMap.t BasesEntryGroup) g :
  totalEntryCount (JsMap.values (mergeStep m g))
  = totalEntryCount (JsMap.values m) + length (entries g).
Proof.
  unfold mergeStep. set (kx := getColumnKey (key g)).
  destruct (JsMap.get kx m) as [existing|] eqn:Hget.
  - pose proof (totalEntryCount_set kx
      {| key := key existing; hasKey := hasKey existing || hasKey g;
         entries := entries existing ++ entries g |} m) as Hs.
    rewrite Hget in Hs. simpl in Hs. rewrite length_app in Hs. lia.
  - pose proof (totalEntryCount_set kx
      {| key := key g; hasKey := hasKey g; entries := entries g |} m) as Hs.
    rewrite Hget in Hs. simpl in Hs. lia.
Qed.

Lemma totalEntryCount_foldl G (m : JsMap.t BasesEntryGroup) :
  totalEntryCount (JsMap.values (foldl mergeStep m G))
  = totalEntryCount (JsMap.values m) + totalEntryCount G.
Proof.
  revert m. induction G as [|g G IH]; intros m; simpl.
  - unfold totalEntryCount at 3. simpl. lia.
  - rewrite IH, totalEntryCount_step. unfold totalEntryCount at 4. simpl.
    fold (totalEntryCount G). lia.
Qed.

Lemma merged_values_keys G (m : JsMap.t BasesEntryGroup) :
  mergedUpTo G m → map columnKeyOf (JsMap.values m) = JsMap.keys m.
Proof.
  intros [Hkeys Hvals].
  assert (Hwf : JsMap.wf m).
  { unfold JsMap.wf. rewrite Hkeys. apply firstOccurrences_NoDup. }
  unfold JsMap.values, JsMap.keys.
  rewrite <- list_fmap_compose. apply list_fmap_ext.
  intros i [k g] Hi. simpl.
  apply (Hvals k g), elem_get_wf; [done|]. by eapply list_elem_of_lookup_2.
Qed.

(** C2. For every list of groups, the merged groups have pairwise
    distinct column keys, hold as many entries in total as the input, come
    in the order in which their keys first occur in the input, and each
    carries the disjunction of the [hasKey] flags (and the concatenation
    of the entries) of the input groups of its key. *)
Theorem mergeGroupsByColumnKey_spec (G : list BasesEntryGroup) :
  let merged := mergeGroupsByColumnKey G in
  NoDup (map columnKeyOf merged)
  ∧ totalEntryCount merged = totalEntryCount G
  ∧ map columnKeyOf merged = firstOccurrences (map columnKeyOf G)
  ∧ Forall (λ g,
       hasKey g = existsb hasKey (groupsWithKey (columnKeyOf g) G)
       ∧ entries g = concat (map entries (groupsWithKey (columnKeyOf g) G)))
     merged.
Proof.
  unfold mergeGroupsByColumnKey. simpl.
  pose proof (mergedUpTo_foldl G) as Hm.
  pose proof (merged_values_keys _ _ Hm) as Hvk.
  destruct Hm as [Hkeys Hvals].
  assert (Hwf : JsMap.wf (foldl mergeStep JsMap.empty G)).
  { unfold JsMap.wf. rewrite Hkeys. apply firstOccurrences_NoDup. }
  split_and!.
  - rewrite Hvk, Hkeys. apply firstOccurrences_NoDup.
  - by rewrite totalEntryCount_foldl.
  - by rewrite Hvk.
  - apply Forall_forall. intros g Hg. unfold JsMap.values in Hg.
    apply list_elem_of_fmap in Hg as ([k g'] & -> & Hin). simpl.
    apply elem_get_wf in Hin; [|done].
    destruct (Hvals _ _ Hin) as (-> & Hh & He). done.
Qed.

End Merge.

(** ** applyLocalCardOrder *)

Lemma filter_ext_elem {A} (P Q : A → Prop) `{∀ x, Decision (P x)}
    `{∀ x, Decision (Q x)} (l : list A) :
  (∀ x, x ∈ l → P x ↔ Q x) → filter P l = filter Q l.
Proof.
  induction l as [|x l IH]; intros Hext; [done|].
  assert (Hl : filter P l = filter Q l).
  { apply IH. intros y Hy. apply Hext. by right. }
  destruct (decide (P x)) as [HP|HP].
  - rewrite !filter_cons_True; [by f_equal | by apply Hext; [left|] | done].
  - rewrite !filter_cons_False; [done | | done].
    intros HQ. apply HP, Hext; [left | done].
Qed.

Lemma omap_ext_all {A B} (f g : A → option B) (l : list A) :
  (∀ x, f x = g x) → omap f l = omap g l.
Proof.
  intros Hext. induction l as [|x l IH]; [done|]. csimpl. by rewrite Hext, IH.
Qed.

Section LocalOrder.
Context `{HostApi}.
Implicit Types (e : BasesEntry) (es : list BasesEntry).

Lemma entryMapOf_lookup es p : entryMapOf es !! p = lastEntryWithPath p es.
Proof.
  unfold entryMapOf, lastEntryWithPath.
  induction es as [|e es IH] using rev_ind; [done|].
  rewrite foldl_snoc, filter_app, last_app.
  destruct (decide (file_path e = p)) as [<-|Hne].
  - by rewrite lookup_insert_eq, (filter_cons_True _ e).
  - by rewrite lookup_insert_ne, (filter_cons_False _ e).
Qed.

Lemma entryMapOf_present es e : e ∈ es → is_Some (entryMapOf es !! file_path e).
Proof.
  intros Hin. rewrite entryMapOf_lookup. unfold lastEntryWithPath.
  assert (Hf : e ∈ filter (λ e', file_path e' = file_path e) es).
  { by apply list_elem_of_filter. }
  destruct (filter _ es) as [|x l] using rev_ind.
  - by apply elem_of_nil in Hf.
  - rewrite last_snoc. by eexists.
Qed.

Lemma collectOrdered_eq (M : gmap string BasesEntry) saved :
  collectOrdered M saved
  = (omap (λ p, M !! p) saved,
     list_to_set (filter (λ p, is_Some (M !! p)) saved)).
Proof.
  unfold collectOrdered.
  induction saved as [|p saved IH] using rev_ind; [done|].
  rewrite foldl_snoc, IH, omap_app, filter_app, list_to_set_app_L. simpl.
  destruct (M !! p) as [e|] eqn:Hp.
  - rewrite (filter_cons_True _ p) by (by rewrite Hp). simpl.
    by rewrite (right_id_L ∅ (∪)).
  - rewrite (filter_cons_False _ p) by (rewrite Hp; by intros [? ?]). simpl.
    by rewrite app_nil_r, (right_id_L ∅ (∪)).
Qed.

Lemma collectNew_eq (used : gset string) es :
  collectNew used es = filter (λ e, file_path e ∉ used) es.
Proof.
  unfold collectNew.
  induction es as [|e es IH] using rev_ind; [done|].
  rewrite foldl_snoc, IH, filter_app.
  destruct (decide (file_path e ∈ used)) as [Hin|Hn].
  - rewrite bool_decide_eq_true_2 by done.
    rewrite (filter_cons_False _ e) by (intros Hn; by apply Hn).
    by rewrite app_nil_r.
  - rewrite bool_decide_eq_false_2 by done.
    by rewrite (filter_cons_True _ e).
Qed.

Lemma applyLocalCardOrder_eq columnKey es localOrder :
  applyLocalCardOrder columnKey es localOrder
  = filter (λ e, file_path e ∉ savedOrder columnKey localOrder) es
    ++ omap (λ p, lastEntryWithPath p es) (savedOrder columnKey localOrder).
Proof.
  unfold applyLocalCardOrder, savedOrder.
  assert (Hall : filter (λ e, file_path e ∉ @nil string) es = es).
  { induction es as [|e es IH]; [done|].
    rewrite filter_cons_True by apply not_elem_of_nil. by rewrite IH. }
  destruct (JsMap.get columnKey localOrder) as [saved|];
    cbv [default from_option id]; [|by rewrite Hall, app_nil_r].
  destruct saved as [|p0 saved0]; [by rewrite Hall, app_nil_r|].
  rewrite bool_decide_eq_false_2 by done.
  set (saved := p0 :: saved0).
  rewrite collectOrdered_eq, collectNew_eq. f_equal.
  - apply filter_ext_elem. intros e Hin.
    rewrite elem_of_list_to_set, list_elem_of_filter.
    pose proof (entryMapOf_present es e Hin). tauto.
  - apply omap_ext_all. intros p. apply entryMapOf_lookup.
Qed.

(** C3 (amended). The result is the entries whose path the saved order
    does not mention, in their original order, followed by the records of
    the saved paths still present, in saved order; a saved path without an
    entry is skipped. With saved order [B, A] and entries [A, B, C] the
    result is [C, B, A]. *)
Theorem applyLocalCardOrder_spec columnKey es localOrder :
  let saved := savedOrder columnKey localOrder in
  applyLocalCardOrder columnKey es localOrder
  = filter (λ e, file_path e ∉ saved) es
    ++ omap (λ p, lastEntryWithPath p es) saved
  ∧ ∀ a b c,
      es = [a; b; c] →
      NoDup [file_path a; file_path b; file_path c] →
      saved = [file_path b; file_path a] →
      applyLocalCardOrder columnKey es localOrder = [c; b; a].
Proof.
  intros saved. split; [apply applyLocalCardOrder_eq|].
  intros a b c -> Hnd Hsaved. rewrite applyLocalCardOrder_eq.
  fold saved. rewrite Hsaved. clear saved Hsaved.
  apply NoDup_cons in Hnd as [Ha Hnd]. apply NoDup_cons in Hnd as [Hb _].
  rewrite !elem_of_cons in Ha. rewrite elem_of_cons in Hb.
  assert (Hab : file_path a ≠ file_path b) by tauto.
  assert (Hac : file_path a ≠ file_path c) by tauto.
  assert (Hbc : file_path b ≠ file_path c) by tauto.
  rewrite (filter_cons_False _ a) by (intros Hn; apply Hn; right; left).
  rewrite (filter_cons_False _ b) by (intros Hn; apply Hn; left).
  rewrite (filter_cons_True _ c).
  2:{ rewrite !elem_of_cons. intros [?|[?|Hn]]; [congruence..|].
      by apply elem_of_nil in Hn. }
  rewrite filter_nil. csimpl. unfold lastEntryWithPath.
  rewrite (filter_cons_False _ a), (filter_cons_True _ b),
    (filter_cons_False _ c) by congruence.
  rewrite (filter_cons_True _ a), (filter_cons_False _ b),
    (filter_cons_False _ c) by congruence.
  done.
Qed.

End LocalOrder.

Lemma applyLocalCardOrder_witness :
  applyLocalCardOrder (H := Sample.host) "todo"
    [Sample.A; Sample.B; Sample.C] [("todo", ["B.md"; "A.md"])]
  = [Sample.C; Sample.B; Sample.A].
Proof.
  apply (applyLocalCardOrder_spec (H := Sample.host) "todo"
           [Sample.A; Sample.B; Sample.C] [("todo", ["B.md"; "A.md"])]).
  - reflexivity.
  - compute_done.
  - reflexivity.
Defined.

(** C3 as stated fails: the saved order [B, A] puts B before A. *)
Lemma applyLocalCardOrder_counterexample :
  applyLocalCardOrder (H := Sample.host) "todo"
    [Sample.A; Sample.B; Sample.C] [("todo", ["B.md"; "A.md"])]
  ≠ [Sample.C; Sample.A; Sample.B].
Proof.
  intros Heq. apply (f_equal (map file_path)) in Heq.
  vm_compute in Heq. discriminate Heq.
Qed.

(** ** canSkipFullRender *)

Lemma canSkipFullRender_true (current : string) (previous : option string)
    (rendered : bool) :
  canSkipFullRender current previous rendered = true
  ↔ rendered = true ∧ ∃ last, previous = Some last ∧ last = current.
Proof.
  unfold canSkipFullRender.
  destruct rendered; simpl; [|split; [done | by intros [? _]]].
  destruct previous as [last|]; simpl.
  - rewrite bool_decide_eq_true. split.
    + intros [= ->]. eauto.
    + intros (_ & ? & [= <-] & ->). done.
  - split; [done | by intros (_ & ? & ? & _)].
Qed.

(** C4. The full render is skipped exactly when the board has been
    rendered, a previous signature exists and it equals the current one;
    never while nothing has been rendered. *)
Theorem canSkipFullRender_iff (current : string) (previous : option string)
    (rendered : bool) :
  (canSkipFullRender current previous rendered = true
   ↔ rendered = true ∧ ∃ last, previous = Some last ∧ last = current)
  ∧ canSkipFullRender current previous false = false.
Proof. split; [apply canSkipFullRender_true | done]. Qed.

Lemma canSkipFullRender_witness :
  canSkipFullRender "sig" (Some "sig") true = true.
Proof.
  apply (canSkipFullRender_iff "sig" (Some "sig") true).
  split; [reflexivity | exists "sig"; split; reflexivity].
Defined.

(** ** Snapshots and their diff *)

Lemma differsAtSomeIndex_false (c p : list string) :
  length c = length p → differsAtSomeIndex c p = false → c = p.
Proof.
  unfold differsAtSomeIndex. intros Hlen Hex.
  apply list_eq_same_length with (length c); [done..|].
  intros i x y Hi Hx Hy.
  destruct (decide (c !! i = p !! i)) as [Heq|Hne]; [congruence|].
  assert (existsb (λ i, negb (bool_decide (c !! i = p !! i)))
            (seq 0 (length c)) = true); [|congruence].
  apply existsb_exists. exists i. split.
  - apply in_seq. lia.
  - by rewrite bool_decide_eq_false_2.
Qed.

Lemma differsAtSomeIndex_refl (c : list string) : differsAtSomeIndex c c = false.
Proof.
  unfold differsAtSomeIndex. apply not_true_is_false.
  intros (i & _ & Hi)%existsb_exists.
  by rewrite bool_decide_eq_true_2 in Hi.
Qed.

Lemma columnChanged_true (previous : JsMap.t (list string)) k paths :
  columnChanged previous k paths = true ↔ JsMap.get k previous ≠ Some paths.
Proof.
  unfold columnChanged. destruct (JsMap.get k previous) as [p|]; [|done].
  destruct (decide (length paths = length p)) as [Hlen|Hlen].
  - rewrite bool_decide_eq_true_2 by done. simpl. split.
    + intros Hd [= ->]. by rewrite differsAtSomeIndex_refl in Hd.
    + intros Hne. apply not_false_is_true. intros Hd. apply Hne.
      f_equal. symmetry. by apply differsAtSomeIndex_false.
  - rewrite bool_decide_eq_false_2 by done. simpl.
    split; [|done]. intros _ [= ->]. done.
Qed.

Lemma findChangedColumns_eq (previous current : JsMap.t (list string)) :
  findChangedColumns previous current
  = (filter (λ kv, JsMap.get kv.1 previous ≠ Some kv.2) current).*1
    ++ filter (λ k, JsMap.get k current = None) (JsMap.keys previous).
Proof.
  unfold findChangedColumns. generalize (JsMap.keys previous) as ks.
  intros ks.
  assert (Hfirst :
    foldl (λ changed '(k, currentPaths),
             if columnChanged previous k currentPaths then changed ++ [k]
             else changed) [] current
    = (filter (λ kv, JsMap.get kv.1 previous ≠ Some kv.2) current).*1).
  { induction current as [|[k paths] cur IH] using rev_ind; [done|].
    rewrite foldl_snoc, IH, filter_app, fmap_app.
    destruct (columnChanged previous k paths) eqn:Hc.
    - apply columnChanged_true in Hc.
      by rewrite (filter_cons_True _ (k, paths)).
    - rewrite (filter_cons_False _ (k, paths)); [by rewrite app_nil_r|].
      intros Hne. apply columnChanged_true in Hne. simpl in Hne. congruence. }
  rewrite Hfirst. generalize ((filter (λ kv, JsMap.get kv.1 previous ≠ Some kv.2)
                                 current).*1) as acc.
  intros acc. induction ks as [|k ks IH] using rev_ind.
  - by rewrite app_nil_r.
  - rewrite foldl_snoc, IH, filter_app, app_assoc. f_equal.
    unfold JsMap.has. destruct (JsMap.get k current) eqn:Hg; simpl.
    + by rewrite (filter_cons_False _ k), app_nil_r by (by rewrite Hg).
    + by rewrite (filter_cons_True _ k).
Qed.

Lemma filter_key_wf {V} (m : JsMap.t V) k v :
  JsMap.wf m → JsMap.get k m = Some v → filter (λ kv, kv.1 = k) m = [(k, v)].
Proof.
  unfold JsMap.wf, JsMap.keys.
  induction m as [|[k' v'] m IH]; csimpl; intros Hwf Hg; [done|].
  apply NoDup_cons in Hwf as [Hk' Hwf].
  destruct (decide (k' = k)) as [->|Hne].
  - injection Hg as ->. rewrite filter_cons_True by done. f_equal.
    clear IH Hwf. induction m as [|[k0 v0] m IH]; [done|].
    csimpl in Hk'. apply not_elem_of_cons in Hk' as [Hne Hk'].
    rewrite filter_cons_False by (simpl; congruence). auto.
  - rewrite filter_cons_False by done. auto.
Qed.

(** C6. Two identical snapshots have no changed column; two snapshots
    that agree on every column but one, whose path lists differ, have
    exactly that column changed; and the result lists the new or modified
    columns in the order of the current snapshot, then the removed ones in
    the order of the previous snapshot. *)
Theorem findChangedColumns_spec (previous current : ColumnSnapshot) :
  (JsMap.wf current → findChangedColumns current current = [])
  ∧ (∀ k,
       JsMap.wf current →
       is_Some (JsMap.get k previous) →
       is_Some (JsMap.get k current) →
       JsMap.get k previous ≠ JsMap.get k current →
       (∀ k', k' ≠ k → JsMap.get k' previous = JsMap.get k' current) →
       findChangedColumns previous current = [k])
  ∧ findChangedColumns previous current
    = (filter (λ kv, JsMap.get kv.1 previous ≠ Some kv.2) current).*1
      ++ filter (λ k, JsMap.get k current = None) (JsMap.keys previous).
Proof.
  split_and!; [| |apply findChangedColumns_eq].
  - intros Hwf. rewrite findChangedColumns_eq.
    rewrite (filter_ext_elem _ (λ _, False)), (filter_ext_elem (λ k, _ = None) (λ _, False)).
    + clear Hwf. by induction current as [|kv cur IH].
    + intros k Hk. apply has_keys in Hk. unfold JsMap.has in Hk.
      destruct (JsMap.get k current); done.
    + intros [k v] Hin. simpl. apply elem_get_wf in Hin; [|done].
      split; [congruence | done].
  - intros k Hwf [p Hp] [c Hc] Hne Hothers. rewrite findChangedColumns_eq.
    rewrite (filter_ext_elem _ (λ kv, kv.1 = k)),
      (filter_ext_elem (λ k, _ = None) (λ _, False)).
    + rewrite (filter_key_wf _ _ c) by done. csimpl.
      generalize (JsMap.keys previous). intros ks. by induction ks.
    + intros k' Hk'. apply has_keys in Hk'. unfold JsMap.has in Hk'.
      destruct (decide (k' = k)) as [->|Hk].
      * rewrite Hc. done.
      * rewrite <- Hothers by done. destruct (JsMap.get k' previous); done.
    + intros [k' v'] Hin. simpl. apply elem_get_wf in Hin; [|done].
      destruct (decide (k' = k)) as [->|Hk].
      * split; [done|]. intros _. congruence.
      * rewrite Hothers, Hin by done. split; [done | congruence].
Qed.

Lemma findChangedColumns_witness :
  findChangedColumns [("todo", ["A.md"; "B.md"]); ("done", ["C.md"])]
                     [("todo", ["B.md"; "A.md"]); ("done", ["C.md"])]
  = ["todo"]
  ∧ findChangedColumns [("todo", ["B.md"; "A.md"]); ("done", ["C.md"])]
                       [("todo", ["B.md"; "A.md"]); ("done", ["C.md"])]
    = [].
Proof.
  destruct (findChangedColumns_spec
              [("todo", ["A.md"; "B.md"]); ("done", ["C.md"])]
              [("todo", ["B.md"; "A.md"]); ("done", ["C.md"])])
    as (Hsame & Hone & _).
  split.
  - apply Hone.
    + unfold JsMap.wf. compute_done.
    + by eexists.
    + by eexists.
    + discriminate.
    + intros k' Hk'. simpl.
      destruct (decide ("todo" = k')); [congruence | reflexivity].
  - apply Hsame. unfold JsMap.wf. compute_done.
Defined.

(** ** canRenderPartially *)

Section Partial.
Context `{HostApi}.

Lemma computeColumnSnapshots_wf (renderedGroups : list RenderedGroup) :
  JsMap.wf (computeColumnSnapshots renderedGroups).
Proof.
  unfold computeColumnSnapshots.
  induction renderedGroups as [|rg rgs IH] using rev_ind.
  - apply NoDup_nil_2.
  - rewrite foldl_snoc. by apply wf_set.
Qed.

(** A key of the current snapshot that the previous one lacks is reported
    as changed. *)
Lemma findChangedColumns_new (previous current : ColumnSnapshot) k :
  k ∈ JsMap.keys current → k ∉ JsMap.keys previous →
  k ∈ findChangedColumns previous current.
Proof.
  intros Hin Hn. rewrite findChangedColumns_eq. apply elem_of_app. left.
  unfold JsMap.keys in Hin. apply list_elem_of_fmap in Hin as ([k' v] & -> & Hin).
  apply list_elem_of_fmap. exists (k', v). split; [done|].
  apply list_elem_of_filter. split; [|done]. simpl.
  apply get_None_keys in Hn. simpl in Hn. by rewrite Hn.
Qed.

(** With as many keys on both sides, a key on one side only comes with a
    key of the current snapshot that the previous one lacks. *)
Lemma new_key_of_difference (previous current : ColumnSnapshot) k :
  JsMap.wf current →
  JsMap.size current = JsMap.size previous →
  JsMap.has k current ≠ JsMap.has k previous →
  ∃ k', k' ∈ JsMap.keys current ∧ k' ∉ JsMap.keys previous.
Proof.
  intros Hwf Hsize Hdiff.
  destruct (decide (Exists (λ k', k' ∉ JsMap.keys previous)
                      (JsMap.keys current))) as [Hex|Hall].
  - apply Exists_exists in Hex. done.
  - exfalso. apply not_Exists_Forall in Hall; [|apply _].
    assert (Hsub : ∀ x, x ∈ JsMap.keys current → x ∈ JsMap.keys previous).
    { intros x Hx. eapply Forall_forall in Hall; [|done].
      simpl in Hall. by apply dec_stable. }
    assert (Hperm : JsMap.keys current ≡ₚ JsMap.keys previous).
    { apply submseteq_length_Permutation.
      - by apply NoDup_submseteq.
      - rewrite <- !size_keys. lia. }
    apply Hdiff.
    destruct (JsMap.has k current) eqn:Hc, (JsMap.has k previous) eqn:Hp;
      [done | | | done].
    + apply has_keys in Hc. apply has_false_keys in Hp. by apply Hsub in Hc.
    + apply has_keys in Hp. apply has_false_keys in Hc.
      rewrite <- Hperm in Hp. done.
Qed.

(** C5. Whenever a column key is in one of the two snapshots and not in
    the other, no partial render is possible, however few columns changed. *)
Theorem canRenderPartially_key_sets_differ
    (renderedGroups : list RenderedGroup)
    (lastColumnPathSnapshots : ColumnSnapshot) (rendered : bool) :
  (∃ k, JsMap.has k (computeColumnSnapshots renderedGroups)
        ≠ JsMap.has k lastColumnPathSnapshots) →
  canPartial (canRenderPartially renderedGroups lastColumnPathSnapshots rendered)
  = false.
Proof.
  intros [k Hdiff]. unfold canRenderPartially.
  destruct (negb rendered || _); [done|].
  destruct (bool_decide (length _ = 0)); [done|].
  set (current := computeColumnSnapshots renderedGroups) in *.
  destruct (bool_decide (JsMap.size current = JsMap.size lastColumnPathSnapshots))
    eqn:Hsize; simpl; [|done].
  apply bool_decide_eq_true in Hsize.
  destruct (new_key_of_difference lastColumnPathSnapshots current k)
    as (k' & Hin & Hn); [apply computeColumnSnapshots_wf | done..|].
  assert (Hex : existsb (λ k0, negb (JsMap.has k0 lastColumnPathSnapshots))
                  (findChangedColumns lastColumnPathSnapshots current) = true).
  { apply existsb_exists. exists k'. split.
    - apply list_elem_of_In. by apply findChangedColumns_new.
    - apply has_false_keys in Hn. by rewrite Hn. }
  by rewrite Hex.
Qed.

End Partial.

Lemma canRenderPartially_witness :
  canPartial
    (canRenderPartially (H := Sample.host)
       (buildRenderedGroups
          [Sample.grp "todo" true [Sample.A]; Sample.grp "doing" true [Sample.B]]
          JsMap.empty)
       [("todo", ["A.md"]); ("done", ["B.md"])] true)
  = false.
Proof.
  apply (canRenderPartially_key_sets_differ (H := Sample.host)).
  exists "doing". vm_compute. discriminate.
Defined.

(** ** reorderPathsForDrop *)

Lemma indexOf_absent x l : x ∉ l → indexOf x l = (-1)%Z.
Proof.
  induction l as [|y l IH]; simpl; intros Hn; [done|].
  apply not_elem_of_cons in Hn as [Hne Hn].
  rewrite decide_False by done. by rewrite IH.
Qed.

Lemma spliceInsert_end l items :
  spliceInsert l (Z.of_nat (length l)) items = l ++ items.
Proof.
  unfold spliceInsert. rewrite Nat2Z.id, firstn_all, drop_all.
  by rewrite app_nil_r.
Qed.

Lemma filter_movedSet (existing moved : list string) :
  filter (λ path, path ∉ (list_to_set moved : gset string)) existing
  = filter (λ path, path ∉ moved) existing.
Proof. apply list_filter_iff. intros p. by rewrite elem_of_list_to_set. Qed.

(** C8. A drop on a card that is itself among the moved ones leaves the
    order as it was. *)
Theorem reorderPathsForDrop_target_moved
    (existingPaths movedPaths : list string) (target : string)
    (placement : Placement) :
  target ∈ movedPaths →
  reorderPathsForDrop existingPaths movedPaths (Some target) placement
  = existingPaths.
Proof.
  intros Hin. unfold reorderPathsForDrop.
  rewrite bool_decide_eq_true_2; [done|]. by apply elem_of_list_to_set.
Qed.

Lemma reorderPathsForDrop_target_moved_witness :
  reorderPathsForDrop ["a"; "b"; "c"] ["b"; "c"] (Some "c") Before
  = ["a"; "b"; "c"].
Proof.
  apply (reorderPathsForDrop_target_moved ["a"; "b"; "c"] ["b"; "c"] "c" Before).
  compute_done.
Defined.

(** C10 (amended). With a non-empty list of moved paths, when there is no
    target, or the target is neither among the moved paths nor in the list
    that remains once they are removed, the moved paths go, in their
    order, to the end of the remaining ones. *)
Theorem reorderPathsForDrop_appends
    (existingPaths movedPaths : list string) (targetPath : option string)
    (placement : Placement) :
  movedPaths ≠ [] →
  (targetPath = None
   ∨ ∃ target, targetPath = Some target
       ∧ (target ∉ movedPaths)
       ∧ (target ∉ filter (λ path, path ∉ movedPaths) existingPaths)) →
  reorderPathsForDrop existingPaths movedPaths targetPath placement
  = filter (λ path, path ∉ movedPaths) existingPaths ++ movedPaths.
Proof.
  intros _ Htarget. unfold reorderPathsForDrop. rewrite filter_movedSet.
  destruct Htarget as [->|(target & -> & Hmoved & Hrest)].
  - apply spliceInsert_end.
  - rewrite bool_decide_eq_false_2 by (by rewrite elem_of_list_to_set).
    rewrite indexOf_absent by done. simpl. apply spliceInsert_end.
Qed.

Lemma reorderPathsForDrop_appends_witness :
  reorderPathsForDrop ["a"; "b"; "c"; "d"] ["c"; "a"] (Some "z") After
  = ["b"; "d"; "c"; "a"]
  ∧ reorderPathsForDrop ["a"; "b"; "c"; "d"] ["c"; "a"] None Before
    = ["b"; "d"; "c"; "a"].
Proof.
  split.
  - apply (reorderPathsForDrop_appends ["a"; "b"; "c"; "d"] ["c"; "a"]
             (Some "z") After).
    + discriminate.
    + right. exists "z". split_and!; [reflexivity | compute_done..].
  - apply (reorderPathsForDrop_appends ["a"; "b"; "c"; "d"] ["c"; "a"]
             None Before).
    + discriminate.
    + left. reflexivity.
Defined.

(** C10 as stated fails: a target among the moved paths is absent from
    the remaining list, and the order is left as it was. *)
Lemma reorderPathsForDrop_counterexample :
  ("a" ∉ filter (λ path, path ∉ ["a"]) ["a"; "b"])
  ∧ reorderPathsForDrop ["a"; "b"] ["a"] (Some "a") Before = ["a"; "b"]
  ∧ reorderPathsForDrop ["a"; "b"] ["a"] (Some "a") Before
    ≠ filter (λ path, path ∉ ["a"]) ["a"; "b"] ++ ["a"].
Proof. split_and!; [compute_done | reflexivity | by vm_compute]. Qed.

(** ** JSON text can be read back *)


Lemma string_app_nil (b : string) : EmptyString +:+ b = b.
Proof. reflexivity. Qed.




Lemma jsonUnescapeChar_quote (x : string) :
  jsonUnescapeChar (doubleQuote +:+ x) = None.
Proof. reflexivity. Qed.




Section JsonArray.
Context {A : Type} (enc : A → string).
Hypothesis enc_prefix_free :
  ∀ a b r1 r2, enc a +:+ r1 = enc b +:+ r2 → a = b ∧ r1 = r2.
Hypothesis enc_not_close : ∀ a r1 r2, enc a +:+ r1 ≠ "]" +:+ r2.



End JsonArray.





(** ** computeRenderSignature *)

Section Signature.
Context `{HostApi}.











End Signature.




(** ** The view *)

Section ViewFacts.
Context `{HostApi}.
Variable hasConfiguredGroupBy : list BasesEntryGroup → bool.

(** The decision of [render], read off its branches. *)
Lemma render_decision inp v :
  (render hasConfiguredGroupBy inp v).2
  = if canSkipFullRender (currentSignatureOf inp) (lastRenderSignature v)
         (hasRenderedBoard v)
    then Skip
    else if negb (hasConfiguredGroupBy (mergeGroupsByColumnKey (groupedData inp)))
    then Placeholder
    else
      let partial :=
        canRenderPartially (renderedGroupsOf inp) (lastColumnPathSnapshots v)
          (hasRenderedBoard v) in
      if canPartial partial && bool_decide (0 < length (changedColumns partial))
      then Partial (changedColumns partial)
      else Full.
Proof.
  unfold render, currentSignatureOf, renderedGroupsOf. cbv zeta.
  destruct (canSkipFullRender _ _ _); [done|].
  destruct (negb (hasConfiguredGroupBy _)); [done|].
  by destruct (canPartial _ && _).
Qed.

Lemma canRenderPartially_no_change renderedGroups last rendered :
  findChangedColumns last (computeColumnSnapshots renderedGroups) = [] →
  canPartial (canRenderPartially renderedGroups last rendered) = false.
Proof.
  intros Hdiff. unfold canRenderPartially.
  destruct (negb rendered || _); [done|]. by rewrite Hdiff.
Qed.

(** C1 (amended). After a first render, when the signature differs from
    the previous one and the diff of the snapshots is empty, the render is
    not skipped: the whole board is rebuilt, or the placeholder is shown
    when no grouping is configured. *)
Theorem render_diff_empty_is_full (inp : RenderInput) (v : KanbanView)
    (previous : string) :
  hasRenderedBoard v = true →
  lastRenderSignature v = Some previous →
  previous ≠ currentSignatureOf inp →
  findChangedColumns (lastColumnPathSnapshots v)
    (computeColumnSnapshots (renderedGroupsOf inp)) = [] →
  (render hasConfiguredGroupBy inp v).2
  = if hasConfiguredGroupBy (mergeGroupsByColumnKey (groupedData inp))
    then Full else Placeholder.
Proof.
  intros Hrendered Hlast Hne Hdiff. rewrite render_decision.
  assert (Hskip : canSkipFullRender (currentSignatureOf inp)
                    (lastRenderSignature v) (hasRenderedBoard v) = false).
  { apply not_true_is_false. intros Hs.
    apply canSkipFullRender_true in Hs as (_ & last & Hl & Heq). congruence. }
  rewrite Hskip.
  destruct (hasConfiguredGroupBy _); cbv zeta; simpl; [|done].
  by rewrite canRenderPartially_no_change.
Qed.

Lemma render_keeps_rendered inp v :
  hasRenderedBoard v = true → hasRenderedBoard (render hasConfiguredGroupBy inp v).1 = true.
Proof.
  intros Hv. unfold render.
  destruct (canSkipFullRender _ _ _); [done|].
  destruct (negb (hasConfiguredGroupBy _)); [done|].
  destruct (canPartial _ && _); [|done]. simpl.
  unfold renderPartial. by destruct (negb (boardElPresent v)).
Qed.

Lemma shouldSkip_keeps_rendered inp v :
  hasRenderedBoard (shouldSkipRenderForOwnScrollUpdate inp v).1
  = hasRenderedBoard v.
Proof.
  unfold shouldSkipRenderForOwnScrollUpdate.
  destruct (pendingLocalScrollRevision v); [|done].
  destruct (scrollState inp) as [[sid rev]|]; [|done].
  by destruct (_ && _).
Qed.

Lemma onDataUpdated_keeps_rendered inp v :
  hasRenderedBoard v = true → hasRenderedBoard (onDataUpdated hasConfiguredGroupBy inp v).1 = true.
Proof.
  intros Hv. unfold onDataUpdated.
  pose proof (shouldSkip_keeps_rendered inp v) as Hs.
  destruct (shouldSkipRenderForOwnScrollUpdate inp v) as [v' own].
  simpl in Hs. destruct own; simpl; [congruence|].
  apply render_keeps_rendered. congruence.
Qed.

Lemma render_full_rendered inp v :
  (render hasConfiguredGroupBy inp v).2 = Full → hasRenderedBoard (render hasConfiguredGroupBy inp v).1 = true.
Proof.
  unfold render.
  destruct (canSkipFullRender _ _ _); [done|].
  destruct (negb (hasConfiguredGroupBy _)); [done|].
  by destruct (canPartial _ && _).
Qed.

Lemma step_keeps_rendered v e :
  hasRenderedBoard v = true → hasRenderedBoard (step hasConfiguredGroupBy v e) = true.
Proof.
  destruct e as [inp|revision]; [|done]. apply onDataUpdated_keeps_rendered.
Qed.

(** C9. The flag starts false, is true once a full render has completed,
    and no sequence of events takes it from true back to false. *)
Theorem hasRenderedBoard_monotonic :
  (∀ sessionId, hasRenderedBoard (newView sessionId) = false)
  ∧ (∀ inp v, (onDataUpdated hasConfiguredGroupBy inp v).2 = Full →
       hasRenderedBoard (onDataUpdated hasConfiguredGroupBy inp v).1 = true)
  ∧ (∀ v events, hasRenderedBoard v = true →
       hasRenderedBoard (run hasConfiguredGroupBy v events) = true).
Proof.
  split_and!; [done | |].
  - intros inp v. unfold onDataUpdated.
    destruct (shouldSkipRenderForOwnScrollUpdate inp v) as [v' own].
    destruct own; [done|]. apply render_full_rendered.
  - intros v events. revert v. unfold run.
    induction events as [|e events IH]; intros v Hv; [done|].
    simpl. apply IH. by apply step_keeps_rendered.
Qed.

End ViewFacts.

(** C1 as stated fails: the tags of one card changed, no column did, and
    the board is rebuilt in full. *)
Lemma render_diff_empty_counterexample :
  let v := Sample.rendered1 in
  let inp := Sample.input Sample.board2 in
  hasRenderedBoard v = true
  ∧ (∃ previous, lastRenderSignature v = Some previous
                 ∧ previous ≠ currentSignatureOf inp)
  ∧ findChangedColumns (lastColumnPathSnapshots v)
      (computeColumnSnapshots (renderedGroupsOf inp)) = []
  ∧ (render Sample.hasConfiguredGroupBy inp v).2 = Full
  ∧ (render Sample.hasConfiguredGroupBy inp v).2 ≠ Skip.
Proof.
  intros v inp. split_and!.
  - reflexivity.
  - eexists. split; [reflexivity|]. by vm_compute.
  - reflexivity.
  - reflexivity.
  - by vm_compute.
Qed.

Lemma render_diff_empty_witness :
  (render (H := Sample.host) Sample.hasConfiguredGroupBy
     (Sample.input Sample.board2) Sample.rendered1).2 = Full.
Proof.
  apply (render_diff_empty_is_full (H := Sample.host)
           Sample.hasConfiguredGroupBy (Sample.input Sample.board2)
           Sample.rendered1
           (currentSignatureOf (Sample.input Sample.board1))).
  - reflexivity.
  - reflexivity.
  - by vm_compute.
  - reflexivity.
Defined.

Lemma hasRenderedBoard_witness :
  let v1 := (onDataUpdated (H := Sample.host) Sample.hasConfiguredGroupBy
               (Sample.input Sample.board1) (newView "session")).1 in
  hasRenderedBoard (newView (H := Sample.host) "session") = false
  ∧ hasRenderedBoard v1 = true
  ∧ hasRenderedBoard
      (run Sample.hasConfiguredGroupBy v1
         [ScrollSaved 1; DataUpdated (Sample.input Sample.board2);
          DataUpdated (Sample.input []);
          DataUpdated (Sample.input Sample.board1)]) = true.
Proof.
  intros v1.
  destruct (hasRenderedBoard_monotonic (H := Sample.host)
              Sample.hasConfiguredGroupBy) as (Hnew & Hfull & Hkeep).
  assert (Hv1 : hasRenderedBoard v1 = true).
  { apply Hfull. reflexivity. }
  split_and!; [apply Hnew | exact Hv1 | apply Hkeep, Hv1].
Defined.

(** * Further properties *)

(** * Further properties *)

(** ** mergeGroupsByColumnKey, continued *)

Section MergeMore.
Context `{HostApi}.
Implicit Types (g : BasesEntryGroup) (G : list BasesEntryGroup).

Lemma mergeStep_fresh (m : JsMap.t BasesEntryGroup) g :
  columnKeyOf g ∉ JsMap.keys m → mergeStep m g = m ++ [(columnKeyOf g, g)].
Proof.
  intros Hn. unfold mergeStep. fold (columnKeyOf g).
  rewrite (proj2 (get_None_keys _ _) Hn), set_absent by done.
  by destruct g.
Qed.

Lemma merge_foldl_distinct G (m : JsMap.t BasesEntryGroup) :
  NoDup (JsMap.keys m ++ map columnKeyOf G) →
  foldl mergeStep m G = m ++ map (λ g, (columnKeyOf g, g)) G.
Proof.
  revert m. induction G as [|g G IH]; intros m Hnd; simpl.
  - by rewrite app_nil_r.
  - simpl in Hnd. apply NoDup_app in Hnd as (Hm & Hdisj & HG).
    rewrite mergeStep_fresh by (intros Hin; apply (Hdisj _ Hin); left).
    rewrite IH, <- app_assoc; [done|].
    unfold JsMap.keys. rewrite fmap_app. simpl. rewrite <- app_assoc. simpl.
    apply NoDup_app. split_and!; [done | | done].
    intros k Hk. by apply Hdisj.
Qed.

(** X1. Groups whose column keys are pairwise distinct pass through the
    merge unchanged, and merging a merged list changes nothing. *)
Theorem mergeGroupsByColumnKey_distinct_id G :
  (NoDup (map columnKeyOf G) → mergeGroupsByColumnKey G = G)
  ∧ mergeGroupsByColumnKey (mergeGroupsByColumnKey G)
    = mergeGroupsByColumnKey G.
Proof.
  assert (Hid : ∀ G', NoDup (map columnKeyOf G') → mergeGroupsByColumnKey G' = G').
  { intros G' Hnd. unfold mergeGroupsByColumnKey, JsMap.values.
    rewrite merge_foldl_distinct by done. simpl.
    rewrite <- list_fmap_compose. apply list_fmap_id. }
  split; [apply Hid|]. apply Hid.
  unfold mergeGroupsByColumnKey.
  pose proof (mergedUpTo_foldl G) as Hm.
  rewrite (merged_values_keys _ _ Hm). destruct Hm as [-> _].
  apply firstOccurrences_NoDup.
Qed.

Lemma merged_first_key G :
  ∀ k g, JsMap.get k (foldl mergeStep JsMap.empty G) = Some g →
    key <$> head (groupsWithKey k G) = Some (key g).
Proof.
  induction G as [|x G IH] using rev_ind; [by intros k g [=]|].
  intros k g. rewrite foldl_snoc.
  set (m := foldl mergeStep JsMap.empty G) in *. unfold mergeStep.
  set (kx := getColumnKey (key x)).
  rewrite groupsWithKey_snoc. fold kx.
  destruct (mergedUpTo_foldl G) as [Hkeys _]. fold m in Hkeys.
  destruct (JsMap.get kx m) as [existing|] eqn:Hget.
  - destruct (decide (kx = k)) as [<-|Hne].
    + rewrite get_set_eq. intros [= <-]. simpl.
      specialize (IH _ _ Hget).
      destruct (groupsWithKey kx G); [done | exact IH].
    + rewrite get_set_ne by done. intros Hg.
      unfold columnKeyOf. fold kx. rewrite decide_False, app_nil_r by done.
      by apply IH.
  - destruct (decide (kx = k)) as [<-|Hne].
    + rewrite get_set_eq. intros [= <-]. simpl.
      apply get_None_keys in Hget. rewrite Hkeys, firstOccurrences_elem in Hget.
      rewrite groupsWithKey_absent by done.
      unfold columnKeyOf. fold kx. by rewrite decide_True.
    + rewrite get_set_ne by done. intros Hg.
      unfold columnKeyOf. fold kx. rewrite decide_False, app_nil_r by done.
      by apply IH.
Qed.

(** X2. A merged group carries the raw key of the first input group of
    its column; later groups of the column only add entries. *)
Theorem mergeGroupsByColumnKey_first_key G :
  Forall (λ g, key <$> head (groupsWithKey (columnKeyOf g) G) = Some (key g))
         (mergeGroupsByColumnKey G).
Proof.
  unfold mergeGroupsByColumnKey. pose proof (mergedUpTo_foldl G) as Hm.
  assert (Hwf : JsMap.wf (foldl mergeStep JsMap.empty G)).
  { unfold JsMap.wf. destruct Hm as [-> _]. apply firstOccurrences_NoDup. }
  apply Forall_forall. intros g Hg. unfold JsMap.values in Hg.
  apply list_elem_of_fmap in Hg as ([k g'] & -> & Hin). simpl.
  apply elem_get_wf in Hin; [|done].
  destruct Hm as [_ Hvals]. destruct (Hvals _ _ Hin) as (-> & _).
  by apply merged_first_key.
Qed.

End MergeMore.

Lemma mergeGroupsByColumnKey_distinct_id_witness :
  mergeGroupsByColumnKey (H := Sample.host) Sample.board1 = Sample.board1.
Proof.
  destruct (mergeGroupsByColumnKey_distinct_id (H := Sample.host) Sample.board1)
    as [Hid _].
  apply Hid. compute_done.
Defined.

(** ** sortGroupsByColumnOrder *)

Lemma lastIndexOf_snoc (k x : string) (l : list string) :
  lastIndexOf k (l ++ [x])
  = if decide (x = k) then Some (length l) else lastIndexOf k l.
Proof.
  unfold lastIndexOf. rewrite length_app. cbn [length].
  rewrite Nat.add_1_r, seq_S, filter_app. cbn [Nat.add].
  assert (Hpre : filter (λ i, (l ++ [x]) !! i = Some k) (seq 0 (length l))
                 = filter (λ i, l !! i = Some k) (seq 0 (length l))).
  { apply filter_ext_elem. intros i Hi. apply elem_of_seq in Hi.
    rewrite lookup_app_l by lia. done. }
  rewrite Hpre.
  assert (Hlast : (l ++ [x]) !! length l = Some x).
  { rewrite lookup_app_r by lia. by rewrite Nat.sub_diag. }
  destruct (decide (x = k)) as [->|Hne].
  - rewrite (filter_cons_True _ (length l)) by done.
    by rewrite filter_nil, last_snoc.
  - rewrite (filter_cons_False _ (length l)) by (rewrite Hlast; congruence).
    by rewrite app_nil_r.
Qed.

Lemma orderMapOf_lookup (columnOrder : list string) (k : string) :
  orderMapOf columnOrder !! k = lastIndexOf k columnOrder.
Proof.
  unfold orderMapOf.
  induction columnOrder as [|x l IH] using rev_ind; [done|].
  rewrite imap_app, foldl_app, lastIndexOf_snoc. simpl.
  rewrite Nat.add_0_r.
  destruct (decide (x = k)) as [->|Hne].
  - by rewrite lookup_insert_eq.
  - by rewrite lookup_insert_ne.
Qed.

Lemma lastIndexOf_Some (k : string) (l : list string) i :
  lastIndexOf k l = Some i → i < length l ∧ l !! i = Some k.
Proof.
  unfold lastIndexOf. intros Hl.
  assert (Hin : i ∈ filter (λ i, l !! i = Some k) (seq 0 (length l))).
  { destruct (filter _ _) as [|y ys] using rev_ind; [done|].
    rewrite last_snoc in Hl. injection Hl as ->.
    apply elem_of_app. right. left. }
  apply list_elem_of_filter in Hin as [Hk Hi]. apply elem_of_seq in Hi.
  split; [lia | done].
Qed.

Lemma lastIndexOf_None (k : string) (l : list string) :
  lastIndexOf k l = None ↔ k ∉ l.
Proof.
  induction l as [|x l IH] using rev_ind; [by split; [intros _ ?%elem_of_nil|]|].
  rewrite lastIndexOf_snoc, elem_of_app, list_elem_of_singleton.
  destruct (decide (x = k)) as [->|Hne].
  - split; [done | intros Hn; exfalso; apply Hn; by right].
  - rewrite IH. split; [intros Hn [?|?]; [done | congruence] | tauto].
Qed.

Section SortMore.
Context `{HostApi}.
Implicit Types (g : BasesEntryGroup) (G : list BasesEntryGroup).

Lemma orderRank_listed columnOrder g :
  orderRank columnOrder g < length columnOrder
  ↔ columnKeyOf g ∈ columnOrder.
Proof.
  unfold orderRank.
  destruct (lastIndexOf (columnKeyOf g) columnOrder) as [i|] eqn:Hl; simpl.
  - apply lastIndexOf_Some in Hl as [Hi Hk].
    split; [intros _; by eapply list_elem_of_lookup_2 | done].
  - apply lastIndexOf_None in Hl. split; [lia | done].
Qed.

Lemma compareByOrder_lt columnOrder a b :
  (compareByOrder (orderMapOf columnOrder) a b <? 0)%Z
  = bool_decide (orderRank columnOrder a < orderRank columnOrder b).
Proof.
  unfold compareByOrder, orderRank. rewrite !orderMapOf_lookup.
  destruct (lastIndexOf (columnKeyOf a) columnOrder) as [ia|] eqn:Ha,
    (lastIndexOf (columnKeyOf b) columnOrder) as [ib|] eqn:Hb; simpl.
  - destruct (decide (ia < ib)).
    + rewrite bool_decide_eq_true_2 by done. apply Z.ltb_lt. lia.
    + rewrite bool_decide_eq_false_2 by done. apply Z.ltb_ge. lia.
  - apply lastIndexOf_Some in Ha as [Hlt _].
    by rewrite bool_decide_eq_true_2.
  - apply lastIndexOf_Some in Hb as [Hlt _].
    rewrite bool_decide_eq_false_2 by lia. done.
  - rewrite bool_decide_eq_false_2 by lia. done.
Qed.

(** Insertion by a rank. *)
Section ByRank.
Variable cmp : BasesEntryGroup → BasesEntryGroup → Z.
Variable rank : BasesEntryGroup → nat.
Hypothesis cmp_rank : ∀ a b, (cmp a b <? 0)%Z = bool_decide (rank a < rank b).

Lemma insertSorted_split g (sorted : list BasesEntryGroup) :
  StronglySorted (λ a b, (rank a ≤ rank b)%nat) sorted →
  ∃ l1 l2, sorted = l1 ++ l2 ∧ insertSorted cmp g sorted = l1 ++ g :: l2
           ∧ Forall (λ x, (rank x ≤ rank g)%nat) l1
           ∧ Forall (λ x, rank g < rank x) l2.
Proof.
  induction sorted as [|g' rest IH]; intros Hs; simpl.
  - by exists [], [].
  - apply StronglySorted_inv in Hs as [Hrest Hall].
    rewrite cmp_rank. destruct (decide (rank g < rank g')) as [Hlt|Hge].
    + rewrite bool_decide_eq_true_2 by done.
      exists [], (g' :: rest). split_and!; [done | done | constructor |].
      constructor; [done|]. eapply Forall_impl; [exact Hall|].
      simpl. intros x Hx. lia.
    + rewrite bool_decide_eq_false_2 by done.
      destruct (IH Hrest) as (l1 & l2 & -> & -> & H1 & H2).
      exists (g' :: l1), l2. split_and!; [done | done | | done].
      constructor; [lia | done].
Qed.

Lemma insertSorted_sorted g (sorted : list BasesEntryGroup) :
  StronglySorted (λ a b, (rank a ≤ rank b)%nat) sorted →
  StronglySorted (λ a b, (rank a ≤ rank b)%nat) (insertSorted cmp g sorted).
Proof.
  intros Hs. destruct (insertSorted_split g sorted Hs)
    as (l1 & l2 & -> & -> & H1 & H2).
  apply StronglySorted_app in Hs as (H12 & Hs1 & Hs2).
  apply StronglySorted_app. split_and!; [| done |].
  - intros x1 x2 Hx1 Hx2. apply elem_of_cons in Hx2 as [->|Hx2].
    + eapply Forall_forall in H1; [|exact Hx1]. exact H1.
    + by apply H12.
  - constructor; [done|]. eapply Forall_impl; [exact H2|]. simpl. lia.
Qed.

Lemma insertSorted_perm g (sorted : list BasesEntryGroup) :
  insertSorted cmp g sorted ≡ₚ g :: sorted.
Proof.
  induction sorted as [|g' rest IH]; simpl; [done|].
  destruct (cmp g g' <? 0)%Z; [done|]. by rewrite IH, Permutation_swap.
Qed.

(** A predicate that holds only of groups of one rank is kept in order. *)
Lemma insertSorted_filter (Q : BasesEntryGroup → Prop)
    `{∀ x, Decision (Q x)} g (sorted : list BasesEntryGroup) :
  (∀ x y, Q x → Q y → rank x = rank y) →
  StronglySorted (λ a b, (rank a ≤ rank b)%nat) sorted →
  filter Q (insertSorted cmp g sorted)
  = filter Q sorted ++ (if decide (Q g) then [g] else []).
Proof.
  intros HQ Hs. destruct (insertSorted_split g sorted Hs)
    as (l1 & l2 & -> & -> & H1 & H2).
  rewrite !filter_app. destruct (decide (Q g)) as [Hg|Hg].
  - rewrite filter_cons_True by done.
    assert (Hnil : filter Q l2 = []).
    { clear -HQ Hg H2. induction l2 as [|x l2 IH]; [done|].
      apply Forall_cons in H2 as [Hx H2].
      rewrite filter_cons_False; [by apply IH|].
      intros Hqx. specialize (HQ _ _ Hqx Hg). lia. }
    by rewrite Hnil, app_nil_r.
  - rewrite filter_cons_False by done. by rewrite app_nil_r.
Qed.

Lemma stableSort_facts G :
  StronglySorted (λ a b, (rank a ≤ rank b)%nat) (stableSort cmp G)
  ∧ stableSort cmp G ≡ₚ G
  ∧ ∀ (Q : BasesEntryGroup → Prop) `{∀ x, Decision (Q x)},
      (∀ x y, Q x → Q y → rank x = rank y) →
      filter Q (stableSort cmp G) = filter Q G.
Proof.
  unfold stableSort. induction G as [|g G (Hs & Hp & Hf)] using rev_ind.
  - split_and!; [constructor | done | done].
  - rewrite foldl_snoc. split_and!.
    + by apply insertSorted_sorted.
    + rewrite insertSorted_perm, Hp. apply Permutation_cons_append.
    + intros Q HdQ HQ. rewrite insertSorted_filter by done.
      rewrite Hf by done. rewrite filter_app. f_equal.
Qed.

End ByRank.

Lemma sortGroups_facts G columnOrder :
  StronglySorted (λ a b, (orderRank columnOrder a ≤ orderRank columnOrder b)%nat)
    (sortGroupsByColumnOrder G columnOrder)
  ∧ sortGroupsByColumnOrder G columnOrder ≡ₚ G
  ∧ ∀ (Q : BasesEntryGroup → Prop) `{∀ x, Decision (Q x)},
      (∀ x y, Q x → Q y → orderRank columnOrder x = orderRank columnOrder y) →
      filter Q (sortGroupsByColumnOrder G columnOrder) = filter Q G.
Proof.
  unfold sortGroupsByColumnOrder.
  destruct columnOrder as [|k0 order0].
  - simpl. split_and!; [|done|done].
    induction G as [|g G IH]; constructor; [done|].
    apply Forall_forall. intros x _. unfold orderRank. simpl. lia.
  - rewrite bool_decide_eq_false_2 by done.
    apply stableSort_facts. apply compareByOrder_lt.
Qed.

(** X3. After the sort the groups come by the position of their key in
    the column order (the last one, when a key is listed twice), and the
    groups whose key is not listed come after all listed ones. *)
Theorem sortGroupsByColumnOrder_sorted G columnOrder :
  StronglySorted (λ a b, (orderRank columnOrder a ≤ orderRank columnOrder b)%nat)
    (sortGroupsByColumnOrder G columnOrder)
  ∧ ∀ i j a b,
      sortGroupsByColumnOrder G columnOrder !! i = Some a →
      sortGroupsByColumnOrder G columnOrder !! j = Some b →
      columnKeyOf a ∉ columnOrder → columnKeyOf b ∈ columnOrder → j < i.
Proof.
  destruct (sortGroups_facts G columnOrder) as (Hs & _ & _).
  split; [done|]. intros i j a b Hi Hj Ha Hb.
  apply orderRank_listed in Hb.
  assert (Hra : ¬ orderRank columnOrder a < length columnOrder).
  { by rewrite orderRank_listed. }
  destruct (decide (j < i)) as [|Hge]; [done|]. exfalso.
  assert (Hij : i < j).
  { destruct (decide (i = j)) as [->|]; [|lia].
    rewrite Hi in Hj. injection Hj as ->. lia. }
  apply lookup_lt_Some in Hj as Hjlen.
  pose proof (take_drop_middle _ _ _ Hi) as Hsplit.
  rewrite <- Hsplit in Hs.
  apply StronglySorted_app in Hs as (_ & _ & Hs).
  apply StronglySorted_inv in Hs as [_ Hall].
  assert (Hb' : b ∈ drop (S i) (sortGroupsByColumnOrder G columnOrder)).
  { apply list_elem_of_lookup. exists (j - S i).
    rewrite lookup_drop. rewrite <- Hj. f_equal. lia. }
  eapply Forall_forall in Hall; [|exact Hb']. simpl in Hall. lia.
Qed.

(** X4. The sort loses and duplicates no group and is stable: the groups of
    one column key keep their relative order, and so do the groups whose
    key is not listed. *)
Theorem sortGroupsByColumnOrder_stable G columnOrder :
  sortGroupsByColumnOrder G columnOrder ≡ₚ G
  ∧ (∀ k, filter (λ g, columnKeyOf g = k)
            (sortGroupsByColumnOrder G columnOrder)
          = filter (λ g, columnKeyOf g = k) G)
  ∧ filter (λ g, columnKeyOf g ∉ columnOrder)
           (sortGroupsByColumnOrder G columnOrder)
    = filter (λ g, columnKeyOf g ∉ columnOrder) G.
Proof.
  destruct (sortGroups_facts G columnOrder) as (_ & Hp & Hf).
  split; [done|]. split.
  - intros k. apply Hf. intros x y Hx Hy. unfold orderRank. by rewrite Hx, Hy.
  - apply Hf. intros x y Hx Hy. unfold orderRank.
    apply lastIndexOf_None in Hx, Hy. by rewrite Hx, Hy.
Qed.

End SortMore.

Lemma sortGroupsByColumnOrder_sorted_witness :
  map columnKeyOf
    (sortGroupsByColumnOrder (H := Sample.host)
       [Sample.grp "x" true []; Sample.grp "todo" true [];
        Sample.grp "y" true []; Sample.grp "done" true []]
       ["done"; "todo"])
  = ["done"; "todo"; "x"; "y"]
  ∧ 1 < 2.
Proof.
  split; [reflexivity|].
  destruct (sortGroupsByColumnOrder_sorted (H := Sample.host)
    [Sample.grp "x" true []; Sample.grp "todo" true [];
     Sample.grp "y" true []; Sample.grp "done" true []]
    ["done"; "todo"]) as [_ Hlast].
  apply (Hlast 2 1 (Sample.grp "x" true []) (Sample.grp "todo" true []));
    [reflexivity | reflexivity | compute_done | compute_done].
Defined.

(** ** applyLocalCardOrder, continued *)

Lemma filter_none {A} (P : A → Prop) `{∀ x, Decision (P x)} (l : list A) :
  (∀ x, x ∈ l → ¬ P x) → filter P l = [].
Proof.
  induction l as [|x l IH]; intros Hl; [done|].
  rewrite filter_cons_False by (apply Hl; left).
  apply IH. intros y Hy. apply Hl. by right.
Qed.

Lemma filter_all {A} (P : A → Prop) `{∀ x, Decision (P x)} (l : list A) :
  (∀ x, x ∈ l → P x) → filter P l = l.
Proof.
  induction l as [|x l IH]; intros Hl; [done|].
  rewrite filter_cons_True by (apply Hl; left).
  f_equal. apply IH. intros y Hy. apply Hl. by right.
Qed.

Lemma last_all_equal {A} (x : A) (l : list A) :
  l ≠ [] → (∀ y, y ∈ l → y = x) → last l = Some x.
Proof.
  destruct l as [|z l] using rev_ind; [done|]. intros _ Hall.
  rewrite last_snoc. f_equal. apply Hall. apply elem_of_app. right. left.
Qed.

Lemma omap_ext_elem {A B} (f g : A → option B) (l : list A) :
  (∀ x, x ∈ l → f x = g x) → omap f l = omap g l.
Proof.
  induction l as [|x l IH]; intros Hext; [done|]. csimpl.
  rewrite Hext by left. rewrite IH; [done|].
  intros y Hy. apply Hext. by right.
Qed.

Section LocalOrderMore.
Context `{HostApi}.
Implicit Types (e : BasesEntry) (es : list BasesEntry).

Lemma lastEntryWithPath_Some p es e :
  lastEntryWithPath p es = Some e → e ∈ es ∧ file_path e = p.
Proof.
  unfold lastEntryWithPath. intros Hl.
  assert (Hin : e ∈ filter (λ x, file_path x = p) es).
  { destruct (filter _ es) as [|y ys] using rev_ind; [done|].
    rewrite last_snoc in Hl. injection Hl as ->.
    apply elem_of_app. right. left. }
  apply list_elem_of_filter in Hin. tauto.
Qed.

Lemma lastEntryWithPath_unique es e :
  NoDup (map file_path es) → e ∈ es →
  lastEntryWithPath (file_path e) es = Some e.
Proof.
  intros Hnd Hin. unfold lastEntryWithPath.
  apply last_all_equal.
  - intros Hnil.
    assert (Hf : e ∈ filter (λ x, file_path x = file_path e) es)
      by by apply list_elem_of_filter.
    rewrite Hnil in Hf. by apply elem_of_nil in Hf.
  - intros y [Hp Hy]%list_elem_of_filter.
    apply list_elem_of_lookup in Hy as [i Hi], Hin as [j Hj].
    assert (i = j) as ->; [|congruence].
    eapply NoDup_lookup; [exact Hnd | |].
    + rewrite list_lookup_fmap, Hi. done.
    + rewrite list_lookup_fmap, Hj. simpl. by rewrite Hp.
Qed.

Lemma orderedPart_elem es (saved : list string) e :
  e ∈ omap (λ p, lastEntryWithPath p es) saved
  ↔ file_path e ∈ saved ∧ lastEntryWithPath (file_path e) es = Some e.
Proof.
  rewrite list_elem_of_omap. split.
  - intros (p & Hp & Hl). destruct (lastEntryWithPath_Some _ _ _ Hl) as [_ <-].
    done.
  - intros [Hp Hl]. eauto.
Qed.

Lemma orderedPart_NoDup es (saved : list string) :
  NoDup saved → NoDup (omap (λ p, lastEntryWithPath p es) saved).
Proof.
  induction saved as [|p saved IH]; intros Hnd; csimpl; [constructor|].
  apply NoDup_cons in Hnd as [Hp Hnd].
  destruct (lastEntryWithPath p es) as [e|] eqn:Hl; [|auto].
  apply NoDup_cons. split; [|auto].
  intros [Hin _]%orderedPart_elem.
  destruct (lastEntryWithPath_Some _ _ _ Hl) as [_ <-]. done.
Qed.

Lemma applyLocalCardOrder_subset columnKey es localOrder e :
  e ∈ applyLocalCardOrder columnKey es localOrder → e ∈ es.
Proof.
  rewrite applyLocalCardOrder_eq.
  rewrite elem_of_app, list_elem_of_filter, orderedPart_elem.
  intros [[_ ?]|[_ Hl]]; [done|].
  by apply lastEntryWithPath_Some in Hl as [? _].
Qed.

(** X5. The result never holds a record that is not among the entries; and
    when the entries have pairwise distinct paths and the saved order
    names no path twice, it is a rearrangement of the entries: no card is
    lost and none is shown twice. *)
Theorem applyLocalCardOrder_perm columnKey es localOrder :
  (∀ e, e ∈ applyLocalCardOrder columnKey es localOrder → e ∈ es)
  ∧ (NoDup (map file_path es) →
     NoDup (savedOrder columnKey localOrder) →
     applyLocalCardOrder columnKey es localOrder ≡ₚ es).
Proof.
  split; [intros e; apply applyLocalCardOrder_subset|].
  intros Hes Hsaved. rewrite applyLocalCardOrder_eq.
  set (saved := savedOrder columnKey localOrder) in *.
  etrans; [|apply (filter_app_complement (λ e, file_path e ∈ saved) es)].
  rewrite Permutation_app_comm. apply Permutation_app; [|done].
  apply NoDup_Permutation.
  - by apply orderedPart_NoDup.
  - apply NoDup_filter. eapply NoDup_fmap_1. exact Hes.
  - intros e. rewrite orderedPart_elem, list_elem_of_filter. split.
    + intros [Hp Hl]. split; [done|].
      by apply lastEntryWithPath_Some in Hl as [? _].
    + intros [Hp Hin]. split; [done|]. by apply lastEntryWithPath_unique.
Qed.

(** X6. Applying the saved order to an already ordered list changes
    nothing. *)
Theorem applyLocalCardOrder_idempotent columnKey es localOrder :
  applyLocalCardOrder columnKey
    (applyLocalCardOrder columnKey es localOrder) localOrder
  = applyLocalCardOrder columnKey es localOrder.
Proof.
  rewrite !applyLocalCardOrder_eq.
  set (saved := savedOrder columnKey localOrder).
  set (N := filter (λ e, file_path e ∉ saved) es).
  set (O := omap (λ p, lastEntryWithPath p es) saved).
  assert (HO : ∀ e, e ∈ O → file_path e ∈ saved
                             ∧ lastEntryWithPath (file_path e) es = Some e).
  { intros e. apply orderedPart_elem. }
  assert (HN : ∀ e, e ∈ N → file_path e ∉ saved).
  { intros e [Hp _]%list_elem_of_filter. done. }
  f_equal.
  - rewrite filter_app. rewrite (filter_all _ N) by done.
    rewrite (filter_none _ O); [by rewrite app_nil_r|].
    intros e He Hn. by apply Hn, HO.
  - clear HN. apply omap_ext_elem. intros p Hp.
    unfold lastEntryWithPath at 1. rewrite filter_app.
    rewrite (filter_none _ N).
    2:{ intros e [Hn _]%list_elem_of_filter Heq. apply Hn. by rewrite Heq. }
    simpl.
    destruct (lastEntryWithPath p es) as [e|] eqn:Hl.
    + apply last_all_equal.
      * intros Hnil.
        assert (He : e ∈ filter (λ x, file_path x = p) O).
        { apply list_elem_of_filter.
          destruct (lastEntryWithPath_Some _ _ _ Hl) as [_ Hpe].
          split; [done|]. apply orderedPart_elem. by rewrite Hpe. }
        rewrite Hnil in He. by apply elem_of_nil in He.
      * intros y [Hy Hin]%list_elem_of_filter.
        destruct (HO _ Hin) as [_ Hly]. rewrite Hy in Hly. congruence.
    + rewrite filter_none; [done|].
      intros y Hin Hy. destruct (HO _ Hin) as [_ Hly].
      rewrite Hy in Hly. congruence.
Qed.

End LocalOrderMore.

Lemma applyLocalCardOrder_perm_witness :
  applyLocalCardOrder (H := Sample.host) "todo"
    [Sample.A; Sample.B; Sample.C] [("todo", ["B.md"; "gone.md"; "A.md"])]
  ≡ₚ [Sample.A; Sample.B; Sample.C].
Proof.
  destruct (applyLocalCardOrder_perm (H := Sample.host) "todo"
              [Sample.A; Sample.B; Sample.C]
              [("todo", ["B.md"; "gone.md"; "A.md"])]) as [_ Hperm].
  apply Hperm; compute_done.
Defined.

(** ** Snapshots, continued *)

Lemma keys_set {V} (k : string) (v : V) (m : JsMap.t V) :
  JsMap.keys (JsMap.set k v m)
  = if decide (k ∈ JsMap.keys m) then JsMap.keys m else JsMap.keys m ++ [k].
Proof.
  destruct (decide (k ∈ JsMap.keys m)) as [Hin|Hn].
  - by apply keys_set_present.
  - rewrite set_absent by done. unfold JsMap.keys. by rewrite fmap_app.
Qed.

Section SnapshotMore.
Context `{HostApi}.
Implicit Types (rg : RenderedGroup) (rgs : list RenderedGroup).

Lemma computeColumnSnapshots_snoc rgs rg :
  computeColumnSnapshots (rgs ++ [rg])
  = JsMap.set (snapshotOf rg).1 (snapshotOf rg).2 (computeColumnSnapshots rgs).
Proof. unfold computeColumnSnapshots. by rewrite foldl_snoc. Qed.

Lemma computeColumnSnapshots_keys rgs :
  JsMap.keys (computeColumnSnapshots rgs)
  = firstOccurrences (map (λ rg, columnKeyOf (group rg)) rgs).
Proof.
  induction rgs as [|rg rgs IH] using rev_ind; [done|].
  rewrite computeColumnSnapshots_snoc, keys_set, map_app, IH. simpl.
  rewrite firstOccurrences_snoc.
  destruct (decide (_ ∈ firstOccurrences _)) as [Hin|Hn];
    rewrite firstOccurrences_elem in *.
  - by rewrite decide_True.
  - by rewrite decide_False.
Qed.

Lemma computeColumnSnapshots_get rgs k :
  JsMap.get k (computeColumnSnapshots rgs)
  = snd <$> last (filter (λ s, s.1 = k) (map snapshotOf rgs)).
Proof.
  induction rgs as [|rg rgs IH] using rev_ind; [done|].
  rewrite computeColumnSnapshots_snoc, map_app, filter_app, last_app. simpl.
  destruct (decide ((snapshotOf rg).1 = k)) as [<-|Hne].
  - rewrite get_set_eq. by rewrite (filter_cons_True _ (snapshotOf rg)).
  - rewrite get_set_ne by done.
    by rewrite (filter_cons_False _ (snapshotOf rg)).
Qed.

Lemma computeColumnSnapshots_distinct rgs :
  NoDup (map (λ rg, columnKeyOf (group rg)) rgs) →
  computeColumnSnapshots rgs = map snapshotOf rgs.
Proof.
  induction rgs as [|rg rgs IH] using rev_ind; intros Hnd; [done|].
  rewrite map_app in Hnd. apply NoDup_app in Hnd as (Hrgs & Hdisj & _).
  rewrite computeColumnSnapshots_snoc, map_app, set_absent.
  - rewrite IH by done. reflexivity.
  - rewrite computeColumnSnapshots_keys, firstOccurrences_elem.
    intros Hin. apply (Hdisj _ Hin). left.
Qed.

(** X7. The snapshot has the column keys of the rendered groups in the
    order of their first occurrence; under a key it holds the paths of the
    last rendered group of that key; and when the keys are pairwise
    distinct it is the list of the groups' keys and paths, one for one. *)
Theorem computeColumnSnapshots_spec rgs :
  JsMap.keys (computeColumnSnapshots rgs)
  = firstOccurrences (map (λ rg, columnKeyOf (group rg)) rgs)
  ∧ (∀ k, JsMap.get k (computeColumnSnapshots rgs)
          = snd <$> last (filter (λ s, s.1 = k) (map snapshotOf rgs)))
  ∧ (NoDup (map (λ rg, columnKeyOf (group rg)) rgs) →
     computeColumnSnapshots rgs = map snapshotOf rgs).
Proof.
  split_and!; [apply computeColumnSnapshots_keys
              | apply computeColumnSnapshots_get
              | apply computeColumnSnapshots_distinct].
Qed.

Lemma buildRenderedGroups_groups (G : list BasesEntryGroup) localOrder :
  map group (buildRenderedGroups G localOrder) = G.
Proof.
  unfold buildRenderedGroups. rewrite <- list_fmap_compose. apply list_fmap_id.
Qed.

Lemma sorted_merged_keys_NoDup (G : list BasesEntryGroup) columnOrder :
  NoDup (map columnKeyOf
           (sortGroupsByColumnOrder (mergeGroupsByColumnKey G) columnOrder)).
Proof.
  destruct (sortGroups_facts (mergeGroupsByColumnKey G) columnOrder)
    as (_ & Hp & _).
  rewrite Hp. unfold mergeGroupsByColumnKey.
  pose proof (mergedUpTo_foldl G) as Hm.
  rewrite (merged_values_keys _ _ Hm). destruct Hm as [-> _].
  apply firstOccurrences_NoDup.
Qed.

(** X8. In a render the rendered groups are the merged groups in display
    order, and their snapshot has exactly one column for each of them, in
    that order, with the paths in the order the cards are shown. *)
Theorem renderedGroups_snapshot (G : list BasesEntryGroup)
    (columnOrder : list string) (localOrder : JsMap.t (list string)) :
  let ordered := sortGroupsByColumnOrder (mergeGroupsByColumnKey G) columnOrder in
  let rendered := buildRenderedGroups ordered localOrder in
  map group rendered = ordered
  ∧ computeColumnSnapshots rendered
    = map (λ g, (columnKeyOf g,
                 map file_path
                   (applyLocalCardOrder (columnKeyOf g) (entries g) localOrder)))
          ordered
  ∧ JsMap.size (computeColumnSnapshots rendered)
    = length (mergeGroupsByColumnKey G).
Proof.
  intros ordered rendered.
  assert (Hsnap : computeColumnSnapshots rendered = map snapshotOf rendered).
  { apply computeColumnSnapshots_distinct.
    assert (map (λ rg, columnKeyOf (group rg)) rendered
            = map columnKeyOf (map group rendered)) as ->
      by (by rewrite <- list_fmap_compose).
    unfold rendered. rewrite buildRenderedGroups_groups.
    apply sorted_merged_keys_NoDup. }
  split_and!.
  - apply buildRenderedGroups_groups.
  - rewrite Hsnap. unfold rendered, buildRenderedGroups.
    by rewrite <- list_fmap_compose.
  - rewrite Hsnap. unfold JsMap.size, rendered, buildRenderedGroups.
    rewrite !length_map. unfold ordered.
    destruct (sortGroups_facts (mergeGroupsByColumnKey G) columnOrder)
      as (_ & Hp & _).
    by rewrite Hp.
Qed.

End SnapshotMore.

Lemma computeColumnSnapshots_spec_witness :
  computeColumnSnapshots (H := Sample.host)
    (buildRenderedGroups Sample.board1 JsMap.empty)
  = [("todo", ["A.md"; "B.md"]); ("done", ["C.md"])].
Proof.
  destruct (computeColumnSnapshots_spec (H := Sample.host)
              (buildRenderedGroups Sample.board1 JsMap.empty)) as (_ & _ & Hd).
  rewrite Hd; [reflexivity | compute_done].
Defined.

(** ** The diff, continued *)

Lemma wf_filter {V} (P : string * V → Prop) `{∀ x, Decision (P x)}
    (m : JsMap.t V) :
  JsMap.wf m → NoDup (filter P m).*1.
Proof.
  unfold JsMap.wf, JsMap.keys.
  induction m as [|[k v] m IH]; csimpl; intros Hnd; [constructor|].
  apply NoDup_cons in Hnd as [Hk Hnd].
  destruct (decide (P (k, v))).
  - rewrite filter_cons_True by done. csimpl. apply NoDup_cons.
    split; [|auto]. intros Hin. apply Hk.
    apply list_elem_of_fmap in Hin as ([k' v'] & -> & [_ Hin]%list_elem_of_filter).
    apply list_elem_of_fmap. by exists (k', v').
  - rewrite filter_cons_False by done. auto.
Qed.

(** X9. The diff is empty exactly when the two snapshots hold the same
    paths under every key (each key held once in the current one). *)
Theorem findChangedColumns_nil_iff (previous current : ColumnSnapshot) :
  JsMap.wf current →
  findChangedColumns previous current = []
  ↔ ∀ k, JsMap.get k previous = JsMap.get k current.
Proof.
  intros Hwf. rewrite findChangedColumns_eq. split.
  - intros [Hcur Hprev]%app_eq_nil k.
    apply fmap_nil_inv in Hcur.
    destruct (JsMap.get k current) as [v|] eqn:Hg.
    + apply get_Some_elem in Hg.
      destruct (decide (JsMap.get k previous = Some v)) as [|Hne]; [done|].
      assert (Hin : (k, v) ∈ filter (λ kv, JsMap.get kv.1 previous ≠ Some kv.2)
                               current) by by apply list_elem_of_filter.
      rewrite Hcur in Hin. by apply elem_of_nil in Hin.
    + apply get_None_keys. intros Hk.
      assert (Hin : k ∈ filter (λ k, JsMap.get k current = None)
                          (JsMap.keys previous)) by by apply list_elem_of_filter.
      rewrite Hprev in Hin. by apply elem_of_nil in Hin.
  - intros Hsame. rewrite !filter_none; [done | |].
    + intros k Hk Hg. rewrite <- Hsame in Hg.
      by apply get_None_keys in Hg.
    + intros [k v] Hin Hne. simpl in Hne. apply Hne.
      rewrite Hsame. by apply elem_get_wf.
Qed.

Lemma findChangedColumns_nil_iff_witness :
  findChangedColumns [("done", ["C.md"]); ("todo", ["A.md"])]
                     [("todo", ["A.md"]); ("done", ["C.md"])] = [].
Proof.
  apply (findChangedColumns_nil_iff [("done", ["C.md"]); ("todo", ["A.md"])]
           [("todo", ["A.md"]); ("done", ["C.md"])]).
  - unfold JsMap.wf. compute_done.
  - intros k. simpl.
    destruct (decide ("done" = k)), (decide ("todo" = k)); congruence.
Defined.

(** X10. The diff names no key twice, and every key it names is a key of
    one of the two snapshots whose paths under it differ. *)
Theorem findChangedColumns_sound (previous current : ColumnSnapshot) :
  JsMap.wf previous → JsMap.wf current →
  NoDup (findChangedColumns previous current)
  ∧ ∀ k, k ∈ findChangedColumns previous current →
      (k ∈ JsMap.keys previous ∨ k ∈ JsMap.keys current)
      ∧ JsMap.get k previous ≠ JsMap.get k current.
Proof.
  intros Hprev Hcur. rewrite findChangedColumns_eq. split.
  - apply NoDup_app. split_and!.
    + by apply wf_filter.
    + intros k Hk [Hnone _]%list_elem_of_filter.
      apply list_elem_of_fmap in Hk as ([k' v] & -> & [_ Hin]%list_elem_of_filter).
      apply get_None_keys in Hnone. apply Hnone.
      apply list_elem_of_fmap. by exists (k', v).
    + by apply NoDup_filter.
  - intros k [Hk|Hk]%elem_of_app.
    + apply list_elem_of_fmap in Hk
        as ([k' v] & -> & [Hne Hin]%list_elem_of_filter).
      simpl in *. split.
      * right. apply list_elem_of_fmap. by exists (k', v).
      * rewrite (elem_get_wf _ _ _ Hcur Hin). done.
    + apply list_elem_of_filter in Hk as [Hnone Hin]. split; [by left|].
      rewrite Hnone. intros Hp. by apply get_None_keys in Hp.
Qed.

Lemma findChangedColumns_sound_witness :
  NoDup (findChangedColumns [("todo", ["A.md"]); ("old", [])]
                            [("todo", ["B.md"]); ("new", [])]).
Proof.
  apply (findChangedColumns_sound [("todo", ["A.md"]); ("old", [])]
           [("todo", ["B.md"]); ("new", [])]);
    unfold JsMap.wf; compute_done.
Defined.

(** ** canRenderPartially, continued *)

Section PartialMore.
Context `{HostApi}.

Lemma findChangedColumns_keys (previous current : ColumnSnapshot) k :
  k ∈ findChangedColumns previous current →
  k ∈ JsMap.keys previous ∨ k ∈ JsMap.keys current.
Proof.
  rewrite findChangedColumns_eq. intros [Hk|Hk]%elem_of_app.
  - right. apply list_elem_of_fmap in Hk
      as ([k' v] & -> & [_ Hin]%list_elem_of_filter).
    apply list_elem_of_fmap. by exists (k', v).
  - left. by apply list_elem_of_filter in Hk as [_ ?].
Qed.

(** X11. A partial render is possible exactly when the board has been
    rendered, the previous snapshot is not empty, some column changed, the
    two snapshots have the same column keys and at most five columns
    changed; the changed columns are then those of the diff, and the list
    is empty otherwise. *)
Theorem canRenderPartially_iff (renderedGroups : list RenderedGroup)
    (lastColumnPathSnapshots : ColumnSnapshot) (rendered : bool) :
  JsMap.wf lastColumnPathSnapshots →
  let current := computeColumnSnapshots renderedGroups in
  let changed := findChangedColumns lastColumnPathSnapshots current in
  let result :=
    canRenderPartially renderedGroups lastColumnPathSnapshots rendered in
  (canPartial result = true
   ↔ rendered = true ∧ lastColumnPathSnapshots ≠ [] ∧ changed ≠ []
     ∧ (∀ k, JsMap.has k current = JsMap.has k lastColumnPathSnapshots)
     ∧ (length changed ≤ 5)%nat)
  ∧ changedColumns result = if canPartial result then changed else [].
Proof.
  intros Hwf current changed result. unfold result, canRenderPartially.
  fold current. fold changed.
  destruct rendered; simpl; [|split; [split; [done | by intros [? _]] | done]].
  destruct (decide (JsMap.size lastColumnPathSnapshots = 0)) as [Hz|Hz].
  { rewrite bool_decide_eq_true_2 by done. simpl.
    split; [|done]. split; [done|]. intros (_ & Hne & _).
    by destruct lastColumnPathSnapshots. }
  rewrite bool_decide_eq_false_2 by done.
  destruct (decide (length changed = 0)) as [Hc|Hc].
  { rewrite bool_decide_eq_true_2 by done. simpl.
    split; [|done]. split; [done|]. intros (_ & _ & Hne & _).
    by destruct changed. }
  rewrite bool_decide_eq_false_2 by done.
  assert (Hstruct :
    negb (bool_decide (JsMap.size current = JsMap.size lastColumnPathSnapshots))
    || existsb (λ k, negb (JsMap.has k lastColumnPathSnapshots)) changed = false
    ↔ ∀ k, JsMap.has k current = JsMap.has k lastColumnPathSnapshots).
  { split.
    - intros [Hsize Hex]%orb_false_elim k.
      apply negb_false_iff, bool_decide_eq_true in Hsize.
      destruct (decide (JsMap.has k current
                        = JsMap.has k lastColumnPathSnapshots)) as [|Hd];
        [done|exfalso].
      destruct (new_key_of_difference lastColumnPathSnapshots current k)
        as (k' & Hin & Hn); [apply computeColumnSnapshots_wf | done..|].
      assert (existsb (λ k0, negb (JsMap.has k0 lastColumnPathSnapshots))
                changed = true); [|congruence].
      apply existsb_exists. exists k'. split.
      + apply list_elem_of_In. by apply findChangedColumns_new.
      + apply has_false_keys in Hn. by rewrite Hn.
    - intros Hsame. apply orb_false_intro.
      + apply negb_false_iff, bool_decide_eq_true. rewrite !size_keys.
        apply Permutation_length, NoDup_Permutation;
          [apply computeColumnSnapshots_wf | exact Hwf |].
        intros k. rewrite <- !has_keys. by rewrite Hsame.
      + apply not_true_is_false. intros (k & Hk & Hhas)%existsb_exists.
        apply list_elem_of_In, findChangedColumns_keys in Hk.
        apply negb_true_iff in Hhas.
        destruct Hk as [Hk|Hk]; apply has_keys in Hk; [|rewrite Hsame in Hk];
          congruence. }
  remember (negb _ || existsb _ _) as b eqn:Hb in |- *.
  rewrite <- Hb in Hstruct. clear Hb. destruct b; simpl.
  { split; [|done]. split; [done|]. intros (_ & _ & _ & Hsame & _).
    apply Hstruct in Hsame. congruence. }
  assert (Hb : ∀ k, JsMap.has k current = JsMap.has k lastColumnPathSnapshots)
    by by apply Hstruct.
  destruct (decide (5 < length changed)) as [Hl|Hl].
  - rewrite bool_decide_eq_true_2 by done. simpl.
    split; [|done]. split; [done|]. intros (_ & _ & _ & _ & ?). lia.
  - rewrite bool_decide_eq_false_2 by done. simpl. split; [|done].
    split; [intros _|done]. split_and!; [done | | | done | lia].
    + by destruct lastColumnPathSnapshots.
    + by destruct changed.
Qed.

End PartialMore.

Lemma canRenderPartially_iff_witness :
  canPartial
    (canRenderPartially (H := Sample.host)
       (buildRenderedGroups
          [Sample.grp "todo" true [Sample.B; Sample.A];
           Sample.grp "done" true [Sample.C]] JsMap.empty)
       [("todo", ["A.md"; "B.md"]); ("done", ["C.md"])] true) = true.
Proof.
  apply (canRenderPartially_iff (H := Sample.host)).
  - unfold JsMap.wf. compute_done.
  - split_and!; [reflexivity | discriminate | by vm_compute | | vm_compute; lia].
    intros k. unfold JsMap.has. simpl.
    destruct (decide ("todo" = k)), (decide ("done" = k)); reflexivity.
Defined.

(** ** The hash of the property values *)

Lemma toInt32_range z : (- 2 ^ 31 ≤ toInt32 z < 2 ^ 31)%Z.
Proof.
  unfold toInt32. pose proof (Z.mod_pos_bound z (2 ^ 32) ltac:(lia)).
  destruct (Z.ltb_spec (z mod 2 ^ 32) (2 ^ 31)); lia.
Qed.

Lemma toInt32_mod z : (toInt32 z mod 2 ^ 32 = z mod 2 ^ 32)%Z.
Proof.
  unfold toInt32. destruct (Z.ltb_spec (z mod 2 ^ 32) (2 ^ 31)).
  - apply Z.mod_mod. lia.
  - rewrite Zminus_mod, Z.mod_same, Z.sub_0_r, !Z.mod_mod by lia. done.
Qed.

Lemma toInt32_congr a b :
  (a mod 2 ^ 32 = b mod 2 ^ 32)%Z → toInt32 a = toInt32 b.
Proof. unfold toInt32. by intros ->. Qed.

Lemma hashStep_poly h c : hashStep (toInt32 h) c = toInt32 (31 * h + c).
Proof.
  unfold hashStep. apply toInt32_congr. rewrite Z.shiftl_mul_pow2 by lia.
  rewrite (Zplus_mod (_ - _)), (Zminus_mod (toInt32 _)), !toInt32_mod.
  rewrite (Zmult_mod (toInt32 h)), toInt32_mod.
  rewrite <- Zmult_mod, <- Zminus_mod, <- Zplus_mod. f_equal. lia.
Qed.

(** X12. The rolling hash is the 31-polynomial of the character codes,
    wrapped to the signed 32-bit range; it never leaves that range. *)
Theorem hash_poly31 (codes : list Z) :
  foldl hashStep 0%Z codes = toInt32 (poly31 codes)
  ∧ (- 2 ^ 31 ≤ foldl hashStep 0%Z codes < 2 ^ 31)%Z.
Proof.
  assert (Heq : foldl hashStep 0%Z codes = toInt32 (poly31 codes)).
  { unfold poly31. induction codes as [|c codes IH] using rev_ind; [done|].
    by rewrite !foldl_snoc, IH, hashStep_poly. }
  split; [done|]. rewrite Heq. apply toInt32_range.
Qed.

(** ** The signature and the untracked properties *)

Section SignatureMore.
Context `{HostApi}.

Lemma entryParts_map e (props parts : list string) :
  foldl (λ parts p, parts ++ [propertyPart e p]) parts props
  = parts ++ map (propertyPart e) props.
Proof.
  revert parts. induction props as [|p props IH]; intros parts; cbn [foldl].
  - by rewrite app_nil_r.
  - rewrite IH, <- app_assoc. done.
Qed.

Lemma propertyPart_equivOn (props : list string) e1 e2 :
  entryEquivOn props e1 e2 →
  map (propertyPart e1) props = map (propertyPart e2) props.
Proof.
  intros [Hpath Hval]. apply list_fmap_ext. intros i p Hp.
  unfold propertyPart. rewrite Hpath, Hval; [done|].
  by eapply list_elem_of_lookup_2.
Qed.

Lemma entriesParts_equivOn (props : list string) es1 es2 (parts : list string) :
  Forall2 (entryEquivOn props) es1 es2 →
  foldl (λ parts e, foldl (λ parts p, parts ++ [propertyPart e p]) parts props)
        parts es1
  = foldl (λ parts e, foldl (λ parts p, parts ++ [propertyPart e p]) parts props)
          parts es2.
Proof.
  intros Hes. revert parts.
  induction Hes as [|e1 e2 es1 es2 He _ IH]; intros parts; cbn [foldl];
    [done|].
  by rewrite !entryParts_map, (propertyPart_equivOn props e1 e2), IH.
Qed.

Lemma collectParts_equivOn (props : list string) G1 G2 :
  Forall2 (groupEquivOn props) G1 G2 →
  collectParts G1 props = collectParts G2 props.
Proof.
  unfold collectParts.
  enough (Hgen : ∀ parts : list string,
    Forall2 (groupEquivOn props) G1 G2 →
    foldl (λ parts g,
             foldl (λ parts e,
                      foldl (λ parts p, parts ++ [propertyPart e p])
                            parts props)
                   parts (entries g)) parts G1
    = foldl (λ parts g,
               foldl (λ parts e,
                        foldl (λ parts p, parts ++ [propertyPart e p])
                              parts props)
                     parts (entries g)) parts G2) by apply Hgen.
  intros parts HG. revert parts.
  induction HG as [|g1 g2 G1 G2 (_ & Hes) _ IH]; intros parts; cbn [foldl];
    [done|].
  by rewrite (entriesParts_equivOn _ _ _ _ Hes), IH.
Qed.

(** X13. The signature depends on the groups only through their column
    keys, the paths of their entries and the values of the tracked
    properties: the selected ones other than [file.name] and the group-by
    property. Whatever else a record holds does not change it. *)
Theorem computeRenderSignature_tracked_only
    (G1 G2 : list BasesEntryGroup) (d : DisplaySettings)
    (localOrder : JsMap.t (list string))
    (selected : list BasesPropertyId) (groupBy : option BasesPropertyId) :
  Forall2 (groupEquivOn (trackedProperties selected groupBy)) G1 G2 →
  computeRenderSignature G1 d localOrder selected groupBy
  = computeRenderSignature G2 d localOrder selected groupBy.
Proof.
  intros HG. unfold computeRenderSignature, computePropertyValuesHash.
  fold (trackedProperties selected groupBy).
  rewrite (collectParts_equivOn _ G1 G2 HG).
  assert (Hkeys : map columnKeyOf G1 = map columnKeyOf G2).
  { clear -HG. induction HG as [|g1 g2 G1 G2 (Hk & _) _ IH]; simpl; [done|].
    by rewrite Hk, IH. }
  assert (Hpaths : map (λ g, map file_path (entries g)) G1
                   = map (λ g, map file_path (entries g)) G2).
  { clear -HG. induction HG as [|g1 g2 G1 G2 (_ & Hes) _ IH]; simpl; [done|].
    rewrite IH. f_equal.
    induction Hes as [|e1 e2 es1 es2 [Hp _] _ IHes]; simpl; [done|].
    by rewrite Hp, IHes. }
  by rewrite Hkeys, Hpaths.
Qed.

End SignatureMore.

Lemma computeRenderSignature_tracked_only_witness :
  computeRenderSignature (H := Sample.host)
    [Sample.grp "todo" true [SampleMore.statusEntry "A.md" "todo"]]
    Sample.settings JsMap.empty ["file.name"; "note.status"; "note.tags"]
    (Some "note.status")
  = computeRenderSignature (H := Sample.host)
      [Sample.grp "todo" true [SampleMore.statusEntry "A.md" "open"]]
      Sample.settings JsMap.empty ["file.name"; "note.status"; "note.tags"]
      (Some "note.status").
Proof.
  apply (computeRenderSignature_tracked_only (H := Sample.host)).
  constructor; [|constructor]. split; [reflexivity|].
  constructor; [|constructor]. split; [reflexivity|].
  intros p Hp. unfold SampleMore.statusEntry. cbn [getValue].
  destruct (decide (p = "note.status")) as [->|]; [|reflexivity].
  exfalso. revert Hp. compute_done.
Defined.

(** ** buildEntryIndexes *)

Section EntryIndexes.
Context `{HostApi}.

Lemma buildEntryIndexes_inner (es : list BasesEntry)
    (m : gmap string BasesEntry) (order : list string) :
  foldl (λ '(entryByPath, cardOrder) entry,
           (<[file_path entry := entry]> entryByPath,
            cardOrder ++ [file_path entry]))
        (m, order) es
  = (foldl (λ m e, <[file_path e := e]> m) m es, order ++ map file_path es).
Proof.
  revert m order. induction es as [|e es IH]; intros m order; cbn [foldl].
  - by rewrite app_nil_r.
  - rewrite IH, <- app_assoc. done.
Qed.

Lemma buildEntryIndexes_eq (groups : list (list BasesEntry)) :
  buildEntryIndexes groups
  = (entryMapOf (concat groups), map file_path (concat groups)).
Proof.
  unfold buildEntryIndexes, entryMapOf.
  enough (Hgen : ∀ (m : gmap string BasesEntry) (order : list string),
    foldl (λ acc es,
             foldl (λ '(entryByPath, cardOrder) entry,
                      (<[file_path entry := entry]> entryByPath,
                       cardOrder ++ [file_path entry]))
                   acc es)
          (m, order) groups
    = (foldl (λ m e, <[file_path e := e]> m) m (concat groups),
       order ++ map file_path (concat groups))) by apply Hgen.
  induction groups as [|es groups IH]; intros m order; cbn [foldl concat].
  - by rewrite app_nil_r.
  - rewrite buildEntryIndexes_inner, IH, foldl_app, map_app, app_assoc. done.
Qed.

Lemma buildEntryIndexes_facts (groups : list (list BasesEntry)) :
  (buildEntryIndexes groups).2 = map file_path (concat groups)
  ∧ (∀ p, (buildEntryIndexes groups).1 !! p
          = lastEntryWithPath p (concat groups))
  ∧ (∀ p, p ∈ (buildEntryIndexes groups).2
          ↔ is_Some ((buildEntryIndexes groups).1 !! p)).
Proof.
  rewrite buildEntryIndexes_eq. simpl. split_and!; [done | |].
  - intros p. apply entryMapOf_lookup.
  - intros p. rewrite entryMapOf_lookup, list_elem_of_fmap. split.
    + intros (e & -> & He). by apply entryMapOf_present in He
        as He'; rewrite entryMapOf_lookup in He'.
    + intros [e He]. apply lastEntryWithPath_Some in He as [He <-]. eauto.
Qed.

(** X14. The card order is the paths of all entries, group after group;
    the entry index holds, under a path, the last entry that carries it;
    and a path is in the card order exactly when it is indexed. *)
Theorem buildEntryIndexes_spec (groups : list (list BasesEntry)) :
  (buildEntryIndexes groups).2 = map file_path (concat groups)
  ∧ (∀ p, (buildEntryIndexes groups).1 !! p
          = lastEntryWithPath p (concat groups))
  ∧ (∀ p, p ∈ (buildEntryIndexes groups).2
          ↔ is_Some ((buildEntryIndexes groups).1 !! p)).
Proof. apply buildEntryIndexes_facts. Qed.

End EntryIndexes.

(** ** The view, continued *)

Section RenderState.
Context `{HostApi}.
Variable hasConfiguredGroupBy : list BasesEntryGroup → bool.

(** X15. Before anything has been rendered a render is never skipped and
    never partial: the board is built in full, or the placeholder is shown
    when no grouping is configured. *)
Theorem render_first_is_full (inp : RenderInput) (v : KanbanView) :
  hasRenderedBoard v = false →
  (render hasConfiguredGroupBy inp v).2
  = if hasConfiguredGroupBy (mergeGroupsByColumnKey (groupedData inp))
    then Full else Placeholder.
Proof.
  intros Hv. rewrite render_decision, Hv.
  unfold canSkipFullRender, canRenderPartially. simpl.
  by destruct (hasConfiguredGroupBy _).
Qed.

Lemma canRenderPartially_true_rendered rgs last rendered :
  canPartial (canRenderPartially rgs last rendered) = true → rendered = true.
Proof. unfold canRenderPartially. by destruct rendered. Qed.

(** What a full or partial render leaves in the view. *)
Lemma render_rendered_state inp v :
  (render hasConfiguredGroupBy inp v).2 = Full
  ∨ (∃ changed, (render hasConfiguredGroupBy inp v).2 = Partial changed) →
  hasRenderedBoard (render hasConfiguredGroupBy inp v).1 = true
  ∧ lastRenderSignature (render hasConfiguredGroupBy inp v).1
    = Some (currentSignatureOf inp).
Proof.
  unfold render, currentSignatureOf.
  destruct (canSkipFullRender _ _ _); [by intros [?|[? ?]]|].
  destruct (negb (hasConfiguredGroupBy _)); [by intros [?|[? ?]]|].
  destruct (canPartial _) eqn:Hp; simpl; [|done].
  apply canRenderPartially_true_rendered in Hp.
  destruct (bool_decide _); simpl; [|done].
  intros _. unfold renderPartial. by destruct (negb (boardElPresent v)).
Qed.

Lemma render_again_skip (inp : RenderInput) (v : KanbanView) :
  (render hasConfiguredGroupBy inp v).2 = Full
  ∨ (∃ changed, (render hasConfiguredGroupBy inp v).2 = Partial changed) →
  render hasConfiguredGroupBy inp (render hasConfiguredGroupBy inp v).1
  = ((render hasConfiguredGroupBy inp v).1, Skip).
Proof.
  intros Hd. destruct (render_rendered_state inp v Hd) as [Hr Hs].
  set (v' := (render hasConfiguredGroupBy inp v).1) in *.
  unfold render. cbv zeta.
  assert (Hskip : canSkipFullRender (currentSignatureOf inp)
                    (lastRenderSignature v') (hasRenderedBoard v') = true).
  { apply canSkipFullRender_true. eauto. }
  unfold currentSignatureOf in Hskip. by rewrite Hskip.
Qed.

(** X16. After a full or a partial render the same data, rendered again,
    is skipped, and the view is left as it is. *)
Theorem render_again_skipped (inp : RenderInput) (v : KanbanView) :
  (render hasConfiguredGroupBy inp v).2 = Full
  ∨ (∃ changed, (render hasConfiguredGroupBy inp v).2 = Partial changed) →
  render hasConfiguredGroupBy inp (render hasConfiguredGroupBy inp v).1
  = ((render hasConfiguredGroupBy inp v).1, Skip).
Proof. apply render_again_skip. Qed.

Lemma rendered_snapshot_eq (G : list BasesEntryGroup)
    (order : list string) (localOrder : JsMap.t (list string)) :
  let rendered :=
    buildRenderedGroups
      (sortGroupsByColumnOrder (mergeGroupsByColumnKey G) order) localOrder in
  computeColumnSnapshots rendered = map snapshotOf rendered.
Proof.
  intros rendered. apply computeColumnSnapshots_distinct.
  assert (map (λ rg, columnKeyOf (group rg)) rendered
          = map columnKeyOf (map group rendered)) as ->
    by (by rewrite <- list_fmap_compose).
  unfold rendered. rewrite buildRenderedGroups_groups.
  apply sorted_merged_keys_NoDup.
Qed.

Lemma concat_snapshot_values (rgs : list RenderedGroup) :
  concat (JsMap.values (map snapshotOf rgs))
  = map file_path (concat (map rg_entries rgs)).
Proof.
  unfold JsMap.values. induction rgs as [|rg rgs IH]; [done|].
  csimpl. by rewrite map_app, IH.
Qed.

(** X17. A full render leaves the indexes and the snapshot in step: the
    card order is the columns of the snapshot one after the other, every
    path of it is indexed, and the board element is there. *)
Theorem render_full_state (inp : RenderInput) (v : KanbanView) :
  (render hasConfiguredGroupBy inp v).2 = Full →
  let v' := (render hasConfiguredGroupBy inp v).1 in
  lastColumnPathSnapshots v' = computeColumnSnapshots (renderedGroupsOf inp)
  ∧ cardOrder v' = concat (JsMap.values (lastColumnPathSnapshots v'))
  ∧ (∀ p, p ∈ cardOrder v' ↔ is_Some (entryByPath v' !! p))
  ∧ boardElPresent v' = true.
Proof.
  unfold render, renderedGroupsOf.
  destruct (canSkipFullRender _ _ _); [done|].
  destruct (negb (hasConfiguredGroupBy _)); [done|].
  destruct (canPartial _ && _); [done|]. intros _. cbv zeta. simpl.
  set (rendered := buildRenderedGroups _ _).
  split; [done|]. split; [|split; [|done]].
  - pose proof (rendered_snapshot_eq (groupedData inp) (columnOrder inp)
                  (localCardOrderByColumn inp)) as Hsnap.
    cbv zeta in Hsnap. fold rendered in Hsnap.
    rewrite Hsnap, concat_snapshot_values.
    by destruct (buildEntryIndexes_facts (map rg_entries rendered)) as (-> & _).
  - apply buildEntryIndexes_facts.
Qed.

(** X18. When a partial render is chosen while the board element is
    missing, nothing is rebuilt: the indexes and the snapshot stay as they
    were, only the signature is recorded, and the same data, rendered
    again, is skipped. *)
Theorem render_partial_without_board (inp : RenderInput) (v : KanbanView)
    (changed : list string) :
  boardElPresent v = false →
  (render hasConfiguredGroupBy inp v).2 = Partial changed →
  let v' := (render hasConfiguredGroupBy inp v).1 in
  lastColumnPathSnapshots v' = lastColumnPathSnapshots v
  ∧ cardOrder v' = cardOrder v
  ∧ entryByPath v' = entryByPath v
  ∧ boardElPresent v' = false
  ∧ lastRenderSignature v' = Some (currentSignatureOf inp)
  ∧ (render hasConfiguredGroupBy inp v').2 = Skip.
Proof.
  intros Hboard Hd v'.
  assert (Hagain := render_again_skip inp v (or_intror (ex_intro _ _ Hd))).
  fold v' in Hagain. rewrite Hagain. clear Hagain.
  revert Hd. unfold v', render, currentSignatureOf.
  destruct (canSkipFullRender _ _ _); [done|].
  destruct (negb (hasConfiguredGroupBy _)); [done|].
  destruct (canPartial _ && _); [|done]. intros _. cbv zeta. simpl.
  unfold renderPartial. by rewrite Hboard.
Qed.

(** X19. The render that follows the view's own scroll save is dropped
    once: the pending revision is cleared, nothing else changes, and the
    next notification is rendered. *)
Theorem onDataUpdated_own_scroll_once (inp inp' : RenderInput) (v : KanbanView) :
  (onDataUpdated hasConfiguredGroupBy inp v).2 = SkipOwnScroll →
  let v' := (onDataUpdated hasConfiguredGroupBy inp v).1 in
  pendingLocalScrollRevision v' = None
  ∧ hasRenderedBoard v' = hasRenderedBoard v
  ∧ lastRenderSignature v' = lastRenderSignature v
  ∧ lastColumnPathSnapshots v' = lastColumnPathSnapshots v
  ∧ cardOrder v' = cardOrder v
  ∧ onDataUpdated hasConfiguredGroupBy inp' v' = render hasConfiguredGroupBy inp' v'.
Proof.
  unfold onDataUpdated at 1 2, shouldSkipRenderForOwnScrollUpdate.
  destruct (pendingLocalScrollRevision v) as [pending|].
  2:{ simpl. intros Hd. exfalso. revert Hd. rewrite render_decision.
      destruct (canSkipFullRender _ _ _); [done|].
      destruct (negb _); [done|]. cbv zeta. by destruct (canPartial _ && _). }
  assert (Hrender : ∀ w, (render hasConfiguredGroupBy inp w).2 ≠ SkipOwnScroll).
  { intros w. rewrite render_decision.
    destruct (canSkipFullRender _ _ _); [done|].
    destruct (negb _); [done|]. cbv zeta. by destruct (canPartial _ && _). }
  destruct (scrollState inp) as [[sessionId revision]|];
    [|by intros ?%Hrender].
  destruct (_ && _); [|by intros ?%Hrender].
  simpl. intros _. by split_and!.
Qed.

(** X20. Whatever happens to a view, the card order and the entry index
    name the same paths. *)
Theorem run_indexes_agree (sessionId : string) (events : list Event) :
  let v := run hasConfiguredGroupBy (newView sessionId) events in
  ∀ p, p ∈ cardOrder v ↔ is_Some (entryByPath v !! p).
Proof.
  simpl. unfold run.
  induction events as [|e events IH] using rev_ind.
  - intros p. simpl. rewrite lookup_empty. split; [by intros ?%elem_of_nil|].
    by intros [? ?].
  - rewrite foldl_snoc. set (v := foldl _ _ events) in *.
    destruct e as [inp|revision]; [|exact IH]. simpl.
    unfold onDataUpdated.
    assert (Hs : ∀ p, p ∈ cardOrder (shouldSkipRenderForOwnScrollUpdate inp v).1
      ↔ is_Some (entryByPath (shouldSkipRenderForOwnScrollUpdate inp v).1 !! p)).
    { unfold shouldSkipRenderForOwnScrollUpdate.
      destruct (pendingLocalScrollRevision v); [|exact IH].
      destruct (scrollState inp) as [[sid rev]|]; [|exact IH].
      destruct (_ && _); exact IH. }
    destruct (shouldSkipRenderForOwnScrollUpdate inp v) as [w own].
    simpl in Hs. destruct own; [exact Hs|].
    unfold render.
    destruct (canSkipFullRender _ _ _); [exact Hs|].
    destruct (negb (hasConfiguredGroupBy _)); [apply buildEntryIndexes_facts|].
    destruct (canPartial _ && _); simpl; [|apply buildEntryIndexes_facts].
    unfold renderPartial. destruct (negb (boardElPresent w)); [exact Hs|].
    apply buildEntryIndexes_facts.
Qed.

End RenderState.

Lemma render_first_is_full_witness :
  (render Sample.hasConfiguredGroupBy (Sample.input Sample.board1)
     (newView (H := Sample.host) "session")).2 = Full.
Proof.
  apply (render_first_is_full (H := Sample.host) Sample.hasConfiguredGroupBy
           (Sample.input Sample.board1) (newView "session")).
  reflexivity.
Defined.

Lemma render_again_skipped_witness :
  (render Sample.hasConfiguredGroupBy (Sample.input SampleMore.board3)
     (render Sample.hasConfiguredGroupBy (Sample.input SampleMore.board3)
        Sample.rendered1).1).2 = Skip.
Proof.
  rewrite (render_again_skipped (H := Sample.host) Sample.hasConfiguredGroupBy
             (Sample.input SampleMore.board3) Sample.rendered1).
  - reflexivity.
  - right. exists ["todo"]. reflexivity.
Defined.

Lemma render_full_state_witness :
  cardOrder Sample.rendered1 = ["A.md"; "B.md"; "C.md"]
  ∧ lastColumnPathSnapshots Sample.rendered1
    = [("todo", ["A.md"; "B.md"]); ("done", ["C.md"])].
Proof.
  destruct (render_full_state (H := Sample.host) Sample.hasConfiguredGroupBy
              (Sample.input Sample.board1) (newView "session"))
    as (Hsnap & Horder & _); [reflexivity|].
  fold Sample.rendered1 in Hsnap, Horder.
  split; [rewrite Horder | rewrite Hsnap]; reflexivity.
Defined.

Lemma render_partial_without_board_witness :
  boardElPresent SampleMore.afterPlaceholder = false
  ∧ (render Sample.hasConfiguredGroupBy (Sample.input SampleMore.board3)
       SampleMore.afterPlaceholder).2 = Partial ["todo"]
  ∧ lastColumnPathSnapshots
      (render Sample.hasConfiguredGroupBy (Sample.input SampleMore.board3)
         SampleMore.afterPlaceholder).1
    = [("todo", ["A.md"; "B.md"]); ("done", ["C.md"])].
Proof.
  split; [reflexivity|]. split; [reflexivity|].
  destruct (render_partial_without_board (H := Sample.host)
              Sample.hasConfiguredGroupBy (Sample.input SampleMore.board3)
              SampleMore.afterPlaceholder ["todo"]) as (Hsnap & _);
    [reflexivity | reflexivity |].
  rewrite Hsnap. reflexivity.
Defined.

Lemma onDataUpdated_own_scroll_once_witness :
  let v := run Sample.hasConfiguredGroupBy (newView "session") [ScrollSaved 3] in
  (onDataUpdated Sample.hasConfiguredGroupBy SampleMore.ownScrollInput v).2
  = SkipOwnScroll
  ∧ (onDataUpdated Sample.hasConfiguredGroupBy SampleMore.ownScrollInput
       (onDataUpdated Sample.hasConfiguredGroupBy SampleMore.ownScrollInput v).1).2
    = Full.
Proof.
  intros v. split; [reflexivity|].
  destruct (onDataUpdated_own_scroll_once (H := Sample.host)
              Sample.hasConfiguredGroupBy SampleMore.ownScrollInput
              SampleMore.ownScrollInput v) as (_ & _ & _ & _ & _ & Hnext);
    [reflexivity|].
  rewrite Hnext. reflexivity.
Defined.

(** ** indexOf and splice *)

Lemma indexOf_at (x : string) (l1 l2 : list string) :
  x ∉ l1 → indexOf x (l1 ++ x :: l2) = Z.of_nat (length l1).
Proof.
  induction l1 as [|y l1 IH]; intros Hn; simpl.
  - by rewrite decide_True.
  - apply not_elem_of_cons in Hn as [Hne Hn].
    rewrite decide_False by done. rewrite IH by done.
    destruct (Z.eqb_spec (Z.of_nat (length l1)) (-1)); lia.
Qed.

Lemma elem_of_first_split (x : string) (l : list string) :
  x ∈ l → ∃ l1 l2, l = l1 ++ x :: l2 ∧ x ∉ l1.
Proof.
  induction l as [|y l IH]; intros Hin; [by apply elem_of_nil in Hin|].
  destruct (decide (y = x)) as [->|Hne].
  - exists [], l. split; [done | apply not_elem_of_nil].
  - apply elem_of_cons in Hin as [?|Hin]; [congruence|].
    destruct (IH Hin) as (l1 & l2 & -> & Hn).
    exists (y :: l1), l2. split; [done|].
    apply not_elem_of_cons. split; [congruence | done].
Qed.

Lemma spliceInsert_at (l1 l2 items : list string) :
  spliceInsert (l1 ++ l2) (Z.of_nat (length l1)) items = l1 ++ items ++ l2.
Proof.
  unfold spliceInsert. rewrite Nat2Z.id.
  by rewrite take_app_length, drop_app_length.
Qed.

Lemma spliceRemove_at (l1 l2 : list string) (x : string) :
  spliceRemove (l1 ++ x :: l2) (Z.of_nat (length l1)) = (l1 ++ l2, [x]).
Proof.
  unfold spliceRemove. rewrite Nat2Z.id, take_app_length, drop_app_length.
  f_equal. f_equal. induction l1 as [|y l1 IH]; [done | exact IH].
Qed.

(** ** reorderPathsForDrop, continued *)

Lemma reorderPathsForDrop_split
    (existingPaths movedPaths : list string) (target : string)
    (placement : Placement) :
  target ∉ movedPaths → target ∈ existingPaths →
  ∃ l1 l2,
    filter (λ path, path ∉ movedPaths) existingPaths = l1 ++ target :: l2
    ∧ (target ∉ l1)
    ∧ reorderPathsForDrop existingPaths movedPaths (Some target) placement
      = match placement with
        | Before => l1 ++ movedPaths ++ target :: l2
        | After => l1 ++ target :: movedPaths ++ l2
        end.
Proof.
  intros Hmoved Hin. unfold reorderPathsForDrop. rewrite filter_movedSet.
  rewrite bool_decide_eq_false_2 by (by rewrite elem_of_list_to_set).
  assert (Hrest : target ∈ filter (λ path, path ∉ movedPaths) existingPaths)
    by by apply list_elem_of_filter.
  destruct (elem_of_first_split _ _ Hrest) as (l1 & l2 & Heq & Hn).
  exists l1, l2. rewrite Heq. split; [done|]. split; [done|].
  rewrite indexOf_at by done.
  destruct (Z.eqb_spec (Z.of_nat (length l1)) (-1)) as [|_]; [lia|]. simpl.
  destruct placement.
  - apply spliceInsert_at.
  - replace (Z.of_nat (length l1) + 1)%Z
      with (Z.of_nat (length (l1 ++ [target]))) by (rewrite length_app; simpl; lia).
    replace (l1 ++ target :: l2) with ((l1 ++ [target]) ++ l2)
      by by rewrite <- app_assoc.
    rewrite spliceInsert_at. by rewrite <- app_assoc.
Qed.

(** X21. When the target is in the list and is not one of the moved
    paths, the moved paths go, in their order, right before the target or
    right after it, and the paths that were not moved keep their order. *)
Theorem reorderPathsForDrop_at_target
    (existingPaths movedPaths : list string) (target : string)
    (placement : Placement) :
  target ∉ movedPaths → target ∈ existingPaths →
  ∃ l1 l2,
    filter (λ path, path ∉ movedPaths) existingPaths = l1 ++ target :: l2
    ∧ (target ∉ l1)
    ∧ reorderPathsForDrop existingPaths movedPaths (Some target) placement
      = match placement with
        | Before => l1 ++ movedPaths ++ target :: l2
        | After => l1 ++ target :: movedPaths ++ l2
        end.
Proof. apply reorderPathsForDrop_split. Qed.

Lemma reorderPathsForDrop_at_target_witness :
  reorderPathsForDrop ["a"; "b"; "c"; "d"] ["d"; "a"] (Some "c") Before
  = ["b"; "d"; "a"; "c"].
Proof.
  destruct (reorderPathsForDrop_at_target ["a"; "b"; "c"; "d"] ["d"; "a"]
              "c" Before) as (l1 & l2 & _ & _ & Heq); [compute_done..|].
  reflexivity.
Defined.

Lemma reorderPathsForDrop_inserted
    (existingPaths movedPaths : list string) (targetPath : option string)
    (placement : Placement) :
  (∀ target, targetPath = Some target → target ∉ movedPaths) →
  ∃ l1 l2,
    filter (λ path, path ∉ movedPaths) existingPaths = l1 ++ l2
    ∧ reorderPathsForDrop existingPaths movedPaths targetPath placement
      = l1 ++ movedPaths ++ l2.
Proof.
  intros Htarget.
  assert (Hend : ∃ l1 l2,
    filter (λ path, path ∉ movedPaths) existingPaths = l1 ++ l2
    ∧ filter (λ path, path ∉ movedPaths) existingPaths ++ movedPaths
      = l1 ++ movedPaths ++ l2).
  { exists (filter (λ path, path ∉ movedPaths) existingPaths), [].
    by rewrite !app_nil_r. }
  destruct targetPath as [target|].
  - specialize (Htarget target eq_refl).
    destruct (decide (target ∈ existingPaths)) as [Hin|Hn].
    + destruct (reorderPathsForDrop_split existingPaths movedPaths target
                  placement Htarget Hin) as (l1 & l2 & Heq & _ & ->).
      rewrite Heq. destruct placement.
      * by exists l1, (target :: l2).
      * exists (l1 ++ [target]), l2. by rewrite <- !app_assoc.
    + unfold reorderPathsForDrop. rewrite filter_movedSet.
      rewrite bool_decide_eq_false_2 by (by rewrite elem_of_list_to_set).
      rewrite indexOf_absent.
      2:{ intros [_ ?]%list_elem_of_filter. done. }
      simpl. rewrite spliceInsert_end. exact Hend.
  - unfold reorderPathsForDrop. rewrite filter_movedSet, spliceInsert_end.
    exact Hend.
Qed.

(** ** The column drop *)

Lemma columnDropOrder_split (orderedKeys : list string)
    (source target : string) (placement : Placement) :
  NoDup orderedKeys → source ≠ target →
  source ∈ orderedKeys → target ∈ orderedKeys →
  ∃ l1 l2,
    filter (λ k, k ≠ source) orderedKeys = l1 ++ target :: l2
    ∧ columnDropOrder orderedKeys (Some source) target placement
      = Some match placement with
             | Before => l1 ++ source :: target :: l2
             | After => l1 ++ target :: source :: l2
             end.
Proof.
  intros Hnd Hne Hs Ht.
  destruct (elem_of_first_split _ _ Hs) as (a & b & -> & Hsa).
  assert (Hsb : source ∉ b).
  { apply NoDup_app in Hnd as (_ & _ & Hb). by apply NoDup_cons in Hb as [? _]. }
  assert (Hrest : filter (λ k, k ≠ source) (a ++ source :: b) = a ++ b).
  { rewrite filter_app, filter_cons_False by (intros Hk; by apply Hk).
    rewrite !filter_all; [done | |]; intros k Hk ->; done. }
  unfold columnDropOrder. rewrite bool_decide_eq_false_2 by done.
  rewrite (indexOf_at source a b) by done.
  rewrite spliceRemove_at.
  assert (Hta : target ∈ a ∨ target ∈ b).
  { apply elem_of_app in Ht as [?|Ht]; [by left|].
    apply elem_of_cons in Ht as [?|?]; [congruence | by right]. }
  destruct Hta as [Hta|Htb].
  - destruct (elem_of_first_split _ _ Hta) as (a1 & a2 & -> & Hn).
    exists a1, (a2 ++ b). rewrite Hrest, <- !app_assoc. cbn [app].
    split; [done|].
    rewrite (indexOf_at target a1 (a2 ++ source :: b)) by done.
    rewrite length_app. simpl.
    destruct (Z.eqb_spec (Z.of_nat (length a1 + S (length a2))) (-1));
      [lia|].
    destruct (Z.eqb_spec (Z.of_nat (length a1)) (-1)); [lia|]. simpl.
    destruct placement.
    + destruct (Z.ltb_spec (Z.of_nat (length a1 + S (length a2)))
                  (Z.of_nat (length a1))); [lia|].
      by rewrite spliceInsert_at.
    + destruct (Z.ltb_spec (Z.of_nat (length a1 + S (length a2)))
                  (Z.of_nat (length a1) + 1)); [lia|].
      replace (Z.of_nat (length a1) + 1)%Z
        with (Z.of_nat (length (a1 ++ [target])))
        by (rewrite length_app; simpl; lia).
      replace (a1 ++ target :: a2 ++ b) with ((a1 ++ [target]) ++ a2 ++ b)
        by by rewrite <- app_assoc.
      rewrite spliceInsert_at. by rewrite <- app_assoc.
  - assert (Hna : target ∉ a).
    { intros Hta. apply NoDup_app in Hnd as (_ & Hdisj & _).
      apply (Hdisj _ Hta). by right. }
    destruct (elem_of_first_split _ _ Htb) as (b1 & b2 & -> & Hn).
    exists (a ++ b1), b2. rewrite Hrest, <- !app_assoc. cbn [app].
    split; [done|].
    replace (a ++ source :: b1 ++ target :: b2)
      with ((a ++ source :: b1) ++ target :: b2)
      by (by rewrite <- app_assoc).
    rewrite (indexOf_at target (a ++ source :: b1) b2).
    2:{ rewrite elem_of_app, elem_of_cons. intros [?|[?|?]]; done. }
    rewrite length_app. simpl.
    destruct (Z.eqb_spec (Z.of_nat (length a)) (-1)); [lia|].
    destruct (Z.eqb_spec (Z.of_nat (length a + S (length b1))) (-1)); [lia|].
    simpl. destruct placement.
    + destruct (Z.ltb_spec (Z.of_nat (length a))
                  (Z.of_nat (length a + S (length b1)))); [|lia].
      replace (Z.of_nat (length a + S (length b1)) - 1)%Z
        with (Z.of_nat (length (a ++ b1))) by (rewrite length_app; lia).
      replace (a ++ b1 ++ target :: b2) with ((a ++ b1) ++ target :: b2)
        by by rewrite <- app_assoc.
      rewrite spliceInsert_at. by rewrite <- app_assoc.
    + destruct (Z.ltb_spec (Z.of_nat (length a))
                  (Z.of_nat (length a + S (length b1)) + 1)); [|lia].
      replace (Z.of_nat (length a + S (length b1)) + 1 - 1)%Z
        with (Z.of_nat (length (a ++ b1 ++ [target])))
        by (rewrite !length_app; simpl; lia).
      replace (a ++ b1 ++ target :: b2) with ((a ++ b1 ++ [target]) ++ b2)
        by by rewrite <- !app_assoc.
      rewrite spliceInsert_at. by rewrite <- !app_assoc.
Qed.

Lemma indexOf_absent_iff (x : string) (l : list string) :
  indexOf x l = (-1)%Z ↔ x ∉ l.
Proof.
  split; [|apply indexOf_absent]. intros Hi Hin.
  destruct (elem_of_first_split _ _ Hin) as (l1 & l2 & -> & Hn).
  rewrite indexOf_at in Hi by done. lia.
Qed.

Section ColumnDrop.
Context `{HostApi}.

(** X22. A column dropped on another column ends up right before it or
    right after it, and the other columns keep their order. *)
Theorem handleColumnDrop_places (G : list BasesEntryGroup)
    (columnOrder : list string) (source target : string)
    (placement : Placement) :
  let orderedKeys :=
    map columnKeyOf
      (sortGroupsByColumnOrder (mergeGroupsByColumnKey G) columnOrder) in
  source ≠ target → source ∈ orderedKeys → target ∈ orderedKeys →
  ∃ l1 l2,
    filter (λ k, k ≠ source) orderedKeys = l1 ++ target :: l2
    ∧ handleColumnDrop G columnOrder (Some source) target placement
      = Some match placement with
             | Before => l1 ++ source :: target :: l2
             | After => l1 ++ target :: source :: l2
             end.
Proof.
  intros orderedKeys Hne Hs Ht. unfold handleColumnDrop.
  apply columnDropOrder_split; [apply sorted_merged_keys_NoDup | done..].
Qed.

(** X23. The drop is given up, and no order saved, exactly when no column
    is being dragged, when the column is dropped on itself, or when one of
    the two columns is not on the board. *)
Theorem handleColumnDrop_aborts (G : list BasesEntryGroup)
    (columnOrder : list string) (sourceColumnKey : option string)
    (target : string) (placement : Placement) :
  let orderedKeys :=
    map columnKeyOf
      (sortGroupsByColumnOrder (mergeGroupsByColumnKey G) columnOrder) in
  handleColumnDrop G columnOrder sourceColumnKey target placement = None
  ↔ match sourceColumnKey with
    | None => True
    | Some source =>
        source = target ∨ source ∉ orderedKeys ∨ target ∉ orderedKeys
    end.
Proof.
  intros orderedKeys. unfold handleColumnDrop, columnDropOrder.
  fold orderedKeys. destruct sourceColumnKey as [source|]; [|done].
  destruct (decide (source = target)) as [->|Hne].
  { rewrite bool_decide_eq_true_2 by done. split; [by left | done]. }
  rewrite bool_decide_eq_false_2 by done.
  destruct (Z.eqb_spec (indexOf source orderedKeys) (-1)) as [Hs|Hs];
    rewrite indexOf_absent_iff in Hs.
  { simpl. split; [by right; left | done]. }
  destruct (Z.eqb_spec (indexOf target orderedKeys) (-1)) as [Ht|Ht];
    rewrite indexOf_absent_iff in Ht.
  { simpl. split; [by right; right | done]. }
  simpl. destruct (spliceRemove orderedKeys (indexOf source orderedKeys)).
  split; [done|].
  intros [?|[?|?]]; done.
Qed.

End ColumnDrop.

Lemma handleColumnDrop_places_witness :
  handleColumnDrop (H := Sample.host) Sample.board1 [] (Some "todo") "done" After
  = Some ["done"; "todo"].
Proof.
  destruct (handleColumnDrop_places (H := Sample.host) Sample.board1 []
              "todo" "done" After) as (l1 & l2 & _ & Heq);
    [compute_done..|].
  reflexivity.
Defined.

Lemma handleColumnDrop_aborts_witness :
  handleColumnDrop (H := Sample.host) Sample.board1 [] (Some "todo") "later"
    Before = None.
Proof.
  apply (handleColumnDrop_aborts (H := Sample.host) Sample.board1 []
           (Some "todo") "later" Before).
  right. right. compute_done.
Defined.

(** ** The local card order after a drop *)

Lemma uniqueDraggedPaths_eq (draggedPaths : list string) :
  uniqueDraggedPaths draggedPaths
  = (firstOccurrences draggedPaths, list_to_set draggedPaths).
Proof.
  unfold uniqueDraggedPaths.
  induction draggedPaths as [|p l IH] using rev_ind; [done|].
  rewrite foldl_snoc, IH, firstOccurrences_snoc, list_to_set_app_L. simpl.
  rewrite (right_id_L ∅ (∪)).
  destruct (decide (p ∈ l)) as [Hin|Hn].
  - rewrite bool_decide_eq_true_2 by (by apply elem_of_list_to_set).
    f_equal. apply set_eq. intros x.
    rewrite elem_of_union, elem_of_singleton, elem_of_list_to_set.
    split; [tauto | intros [?| ->]; done].
  - by rewrite bool_decide_eq_false_2 by (by rewrite elem_of_list_to_set).
Qed.

Lemma filter_firstOccurrences (existing dragged : list string) :
  filter (λ path, path ∉ firstOccurrences dragged) existing
  = filter (λ path, path ∉ dragged) existing.
Proof. apply list_filter_iff. intros p. by rewrite firstOccurrences_elem. Qed.

(** The saved order of the target column after a drop on a card that is
    not dragged, or on no card. *)
Lemma dropped_order_NoDup (paths dragged : list string)
    (targetPath : option string) (placement : Placement) :
  NoDup paths →
  (∀ target, targetPath = Some target → target ∉ dragged) →
  let order :=
    reorderPathsForDrop paths (firstOccurrences dragged) targetPath placement in
  NoDup order ∧ ∀ p, p ∈ order ↔ p ∈ paths ∨ p ∈ dragged.
Proof.
  intros Hnd Htarget order.
  destruct (reorderPathsForDrop_inserted paths (firstOccurrences dragged)
              targetPath placement) as (l1 & l2 & Hrest & Horder).
  { intros target Ht. rewrite firstOccurrences_elem. by apply Htarget. }
  fold order in Horder. rewrite Horder. clear Horder order.
  rewrite filter_firstOccurrences in Hrest.
  assert (Hl : ∀ p, p ∈ l1 ++ l2 ↔ (p ∉ dragged) ∧ p ∈ paths).
  { intros p. by rewrite <- Hrest, list_elem_of_filter. }
  assert (Hnd12 : NoDup (l1 ++ l2)).
  { rewrite <- Hrest. by apply NoDup_filter. }
  split.
  - apply NoDup_app in Hnd12 as (H1 & H12 & H2).
    apply NoDup_app. split_and!; [done | |].
    + intros p Hp [Hd|Hp2]%elem_of_app.
      * rewrite firstOccurrences_elem in Hd.
        assert (p ∈ l1 ++ l2) as [? _]%Hl by (apply elem_of_app; by left). done.
      * by apply (H12 p).
    + apply NoDup_app. split_and!; [apply firstOccurrences_NoDup | | done].
      intros p Hd Hp2. rewrite firstOccurrences_elem in Hd.
      assert (p ∈ l1 ++ l2) as [? _]%Hl by (apply elem_of_app; by right). done.
  - intros p. rewrite !elem_of_app, firstOccurrences_elem.
    pose proof (Hl p) as Hp. rewrite elem_of_app in Hp.
    destruct (decide (p ∈ dragged)); tauto.
Qed.

Lemma dropped_order_block (paths dragged : list string)
    (targetPath : option string) (placement : Placement) :
  (∀ target, targetPath = Some target → target ∉ dragged) →
  ∃ l1 l2,
    reorderPathsForDrop paths (firstOccurrences dragged) targetPath placement
    = l1 ++ firstOccurrences dragged ++ l2
    ∧ l1 ++ l2 = filter (λ p, p ∉ dragged) paths.
Proof.
  intros Htarget.
  destruct (reorderPathsForDrop_inserted paths (firstOccurrences dragged)
              targetPath placement) as (l1 & l2 & Hrest & Horder).
  { intros target Ht. rewrite firstOccurrences_elem. by apply Htarget. }
  rewrite filter_firstOccurrences in Hrest. eauto.
Qed.

Lemma filter_not_dragged_twice (dragged paths : list string) :
  filter (λ p, p ∉ dragged) (filter (λ p, p ∉ dragged) paths)
  = filter (λ p, p ∉ dragged) paths.
Proof. apply filter_all. by intros p [? _]%list_elem_of_filter. Qed.

(** X24. After a drop from one column into another, on a card that is
    not dragged or on no card, the saved order of the source column is
    its cards without the dragged ones; the saved order of the target
    column is its cards that are not dragged, in their order, with the
    dragged cards, each once and in the order of the drag, put in as one
    block; it names no card twice when the column shows no path twice;
    and the saved orders of the other columns are untouched. *)
Theorem updateLocalCardOrderForDrop_cross
    (getColumnCardPaths : string → list string)
    (localOrder : JsMap.t (list string)) (source target : string)
    (draggedPaths : list string) (targetPath : option string)
    (placement : Placement) :
  source ≠ target → draggedPaths ≠ [] →
  (∀ t, targetPath = Some t → t ∉ draggedPaths) →
  ∃ saved l1 l2,
    updateLocalCardOrderForDrop getColumnCardPaths localOrder (Some source)
      target draggedPaths targetPath placement = Some saved
    ∧ JsMap.get source saved
      = Some (filter (λ p, p ∉ draggedPaths) (getColumnCardPaths source))
    ∧ JsMap.get target saved
      = Some (l1 ++ firstOccurrences draggedPaths ++ l2)
    ∧ l1 ++ l2 = filter (λ p, p ∉ draggedPaths) (getColumnCardPaths target)
    ∧ (NoDup (getColumnCardPaths target) →
       NoDup (l1 ++ firstOccurrences draggedPaths ++ l2))
    ∧ ∀ k, k ≠ source → k ≠ target →
        JsMap.get k saved = JsMap.get k localOrder.
Proof.
  intros Hne Hdragged Htarget.
  destruct (dropped_order_block
              (filter (λ p, p ∉ draggedPaths) (getColumnCardPaths target))
              draggedPaths targetPath placement Htarget)
    as (l1 & l2 & Horder & Hrest).
  rewrite filter_not_dragged_twice in Hrest.
  unfold updateLocalCardOrderForDrop.
  rewrite bool_decide_eq_false_2 by (by destruct draggedPaths).
  rewrite uniqueDraggedPaths_eq, bool_decide_eq_false_2 by done.
  rewrite !filter_movedSet. eexists _, l1, l2. split; [done|]. split_and!.
  - rewrite get_set_ne by done. by rewrite get_set_eq.
  - by rewrite get_set_eq, Horder.
  - done.
  - intros Hnd. rewrite <- Horder.
    apply (dropped_order_NoDup
             (filter (λ p, p ∉ draggedPaths) (getColumnCardPaths target))
             draggedPaths targetPath placement); [by apply NoDup_filter | done].
  - intros k Hks Hkt. by rewrite !get_set_ne.
Qed.

(** X25. After a drop inside one column (or from an unknown column): a
    drop on a dragged card saves the cards of the column as it shows
    them; any other drop saves its cards that are not dragged, in their
    order, with the dragged cards, each once, put in as one block. When
    the column shows no path twice and the dragged cards are among its
    cards, the saved order is a rearrangement of the cards it shows. The
    saved orders of the other columns are untouched. *)
Theorem updateLocalCardOrderForDrop_same
    (getColumnCardPaths : string → list string)
    (localOrder : JsMap.t (list string)) (sourceColumnKey : option string)
    (target : string) (draggedPaths : list string)
    (targetPath : option string) (placement : Placement) :
  (sourceColumnKey = None ∨ sourceColumnKey = Some target) →
  draggedPaths ≠ [] →
  ∃ saved order,
    updateLocalCardOrderForDrop getColumnCardPaths localOrder sourceColumnKey
      target draggedPaths targetPath placement = Some saved
    ∧ JsMap.get target saved = Some order
    ∧ ((∃ t, targetPath = Some t ∧ t ∈ draggedPaths) →
       order = getColumnCardPaths target)
    ∧ ((∀ t, targetPath = Some t → t ∉ draggedPaths) →
       ∃ l1 l2,
         order = l1 ++ firstOccurrences draggedPaths ++ l2
         ∧ l1 ++ l2
           = filter (λ p, p ∉ draggedPaths) (getColumnCardPaths target))
    ∧ (NoDup (getColumnCardPaths target) →
       (∀ p, p ∈ draggedPaths → p ∈ getColumnCardPaths target) →
       order ≡ₚ getColumnCardPaths target)
    ∧ ∀ k, k ≠ target → JsMap.get k saved = JsMap.get k localOrder.
Proof.
  intros Hsource Hdragged.
  set (order := reorderPathsForDrop (getColumnCardPaths target)
                  (firstOccurrences draggedPaths) targetPath placement).
  assert (Hon : (∃ t, targetPath = Some t ∧ t ∈ draggedPaths) →
                order = getColumnCardPaths target).
  { intros (t & Ht & Hin). unfold order, reorderPathsForDrop. rewrite Ht.
    rewrite bool_decide_eq_true_2; [done|].
    by rewrite elem_of_list_to_set, firstOccurrences_elem. }
  exists (JsMap.set target order localOrder), order.
  split; [|split; [|split; [|split; [|split]]]].
  - unfold updateLocalCardOrderForDrop.
    rewrite bool_decide_eq_false_2 by (by destruct draggedPaths).
    rewrite uniqueDraggedPaths_eq.
    destruct Hsource as [-> | ->]; [done|].
    by rewrite bool_decide_eq_true_2.
  - apply get_set_eq.
  - exact Hon.
  - intros Hno. by apply dropped_order_block.
  - intros Hnd Hsub.
    assert (Hcase : (∃ t, targetPath = Some t ∧ t ∈ draggedPaths)
                    ∨ ∀ t, targetPath = Some t → t ∉ draggedPaths).
    { destruct targetPath as [t|]; [|by right].
      destruct (decide (t ∈ draggedPaths)); [left; eauto | right].
      by intros ? [= <-]. }
    destruct Hcase as [Hyes|Hno]; [by rewrite (Hon Hyes)|].
    destruct (dropped_order_NoDup (getColumnCardPaths target) draggedPaths
                targetPath placement) as [Hnd' Hin]; [done..|].
    apply NoDup_Permutation; [done..|].
    intros p. fold order in Hin. rewrite Hin. split; [intros [?|?]; auto | auto].
  - intros k Hk. by rewrite get_set_ne.
Qed.

Lemma updateLocalCardOrderForDrop_cross_witness :
  updateLocalCardOrderForDrop
    (λ k, if decide (k = "todo") then ["A.md"; "B.md"]
          else if decide (k = "done") then ["C.md"; "C.md"] else [])
    [("todo", ["B.md"; "A.md"])] (Some "todo") "done"
    ["A.md"; "A.md"] (Some "C.md") Before
  = Some [("todo", ["B.md"]); ("done", ["A.md"; "C.md"; "C.md"])].
Proof.
  destruct (updateLocalCardOrderForDrop_cross
    (λ k, if decide (k = "todo") then ["A.md"; "B.md"]
          else if decide (k = "done") then ["C.md"; "C.md"] else [])
    [("todo", ["B.md"; "A.md"])] "todo" "done"
    ["A.md"; "A.md"] (Some "C.md") Before) as (saved & l1 & l2 & Hsaved & _).
  - discriminate.
  - discriminate.
  - intros t [= <-]. compute_done.
  - reflexivity.
Defined.

Lemma updateLocalCardOrderForDrop_same_witness :
  updateLocalCardOrderForDrop
    (λ k, if decide (k = "todo") then ["C.md"; "A.md"; "C.md"] else [])
    JsMap.empty None "todo" ["C.md"] (Some "A.md") After
  = Some [("todo", ["A.md"; "C.md"])].
Proof.
  destruct (updateLocalCardOrderForDrop_same
    (λ k, if decide (k = "todo") then ["C.md"; "A.md"; "C.md"] else [])
    JsMap.empty None "todo" ["C.md"] (Some "A.md") After)
    as (saved & order & Hsaved & _).
  - by left.
  - discriminate.
  - reflexivity.
Defined.

(** ** getCardIndex *)

(** X26. The index of a card is the first position of its path in the
    card order; a path that is not in the card order gets index 0, the
    index of the first card. *)
Theorem getCardIndex_spec (cardOrder : list string) (filePath : string) :
  (filePath ∈ cardOrder →
   ∃ i, getCardIndex cardOrder filePath = Z.of_nat i
        ∧ cardOrder !! i = Some filePath
        ∧ ∀ j, j < i → cardOrder !! j ≠ Some filePath)
  ∧ (filePath ∉ cardOrder → getCardIndex cardOrder filePath = 0%Z).
Proof.
  unfold getCardIndex. split.
  - intros Hin. destruct (elem_of_first_split _ _ Hin) as (l1 & l2 & -> & Hn).
    exists (length l1). rewrite indexOf_at by done.
    destruct (Z.eqb_spec (Z.of_nat (length l1)) (-1)); [lia|].
    split_and!; [done | |].
    + by rewrite list_lookup_middle.
    + intros j Hj Hl. rewrite lookup_app_l in Hl by done.
      apply Hn. by eapply list_elem_of_lookup_2.
  - intros Hn. by rewrite indexOf_absent.
Qed.

Lemma getCardIndex_spec_witness :
  getCardIndex ["A.md"; "B.md"; "B.md"] "B.md" = 1%Z
  ∧ getCardIndex ["A.md"; "B.md"] "Z.md" = 0%Z.
Proof.
  split.
  - destruct (getCardIndex_spec ["A.md"; "B.md"; "B.md"] "B.md") as [Hin _].
    destruct Hin as (i & Hi & _); [compute_done|]. reflexivity.
  - apply (getCardIndex_spec ["A.md"; "B.md"] "Z.md"). compute_done.
Defined.

(** ** The start indexes of the columns in a partial render *)

Section CardIndexes.
Context `{HostApi}.
Implicit Types (rg : RenderedGroup) (rgs : list RenderedGroup).

Lemma groupByKeyOf_lookup rgs rg :
  NoDup (map (λ rg, columnKeyOf (group rg)) rgs) → rg ∈ rgs →
  groupByKeyOf rgs !! columnKeyOf (group rg) = Some rg.
Proof.
  unfold groupByKeyOf.
  induction rgs as [|x rgs IH] using rev_ind; intros Hnd Hin.
  - by apply elem_of_nil in Hin.
  - rewrite foldl_snoc. rewrite map_app in Hnd.
    apply NoDup_app in Hnd as (Hnd & Hdisj & _).
    apply elem_of_app in Hin as [Hin|Hin].
    + rewrite lookup_insert_ne; [by apply IH|].
      intros Heq. apply (Hdisj (columnKeyOf (group rg))).
      * apply list_elem_of_fmap. by exists rg.
      * rewrite <- Heq. left.
    + apply list_elem_of_singleton in Hin as ->. by rewrite lookup_insert_eq.
Qed.

Lemma columnCardIndexes_fold (M : gmap string RenderedGroup) rgs :
  NoDup (map (λ rg, columnKeyOf (group rg)) rgs) →
  (∀ rg, rg ∈ rgs → M !! columnKeyOf (group rg) = Some rg) →
  let result :=
    foldl (λ '(cardIndex, indexes) rg,
             let k := columnKeyOf (group rg) in
             let indexes := <[k := cardIndex]> indexes in
             match M !! k with
             | Some rg' => (cardIndex + length (rg_entries rg'), indexes)
             | None => (cardIndex, indexes)
             end)
          (0, (∅ : gmap string nat)) rgs in
  result.1 = length (concat (map rg_entries rgs))
  ∧ ∀ i rg, rgs !! i = Some rg →
      result.2 !! columnKeyOf (group rg)
      = Some (length (concat (map rg_entries (take i rgs)))).
Proof.
  induction rgs as [|x rgs IH] using rev_ind; intros Hnd HM.
  - simpl. split; [done|]. intros i rg Hi. by rewrite lookup_nil in Hi.
  - rewrite map_app in Hnd. apply NoDup_app in Hnd as (Hnd & Hdisj & _).
    destruct IH as [Hidx Hstart]; [done | |].
    { intros rg Hrg. apply HM, elem_of_app. by left. }
    cbv zeta. rewrite foldl_snoc.
    destruct (foldl _ _ rgs) as [cardIndex indexes]. simpl in Hidx, Hstart.
    rewrite HM by (apply elem_of_app; right; left). simpl.
    split.
    + rewrite map_app, concat_app, length_app, Hidx. simpl.
      by rewrite app_nil_r.
    + intros i rg Hi. destruct (decide (i < length rgs)) as [Hlt|Hge].
      * rewrite lookup_app_l in Hi by done.
        rewrite lookup_insert_ne.
        -- rewrite take_app_le by lia. by apply Hstart.
        -- intros Heq. apply (Hdisj (columnKeyOf (group rg))).
           ++ apply list_elem_of_fmap. exists rg. split; [done|].
              by eapply list_elem_of_lookup_2.
           ++ rewrite <- Heq. left.
      * assert (i = length rgs) as ->.
        { apply lookup_lt_Some in Hi. rewrite length_app in Hi.
          simpl in Hi. lia. }
        rewrite list_lookup_middle in Hi by done. injection Hi as <-.
        rewrite lookup_insert_eq, take_app_length. by rewrite Hidx.
Qed.

(** X27. In a partial render the start index of a column is the number of
    cards in the columns before it, so the cards of the column sit at
    their positions in the card order (the column keys pairwise
    distinct). *)
Theorem columnCardIndexes_spec rgs i rg :
  NoDup (map (λ rg, columnKeyOf (group rg)) rgs) →
  rgs !! i = Some rg →
  ∃ start,
    columnCardIndexes rgs !! columnKeyOf (group rg) = Some start
    ∧ start = length (concat (map rg_entries (take i rgs)))
    ∧ ∀ j e, rg_entries rg !! j = Some e →
        (buildEntryIndexes (map rg_entries rgs)).2 !! (start + j)
        = Some (file_path e).
Proof.
  intros Hnd Hi. unfold columnCardIndexes. cbv zeta.
  destruct (columnCardIndexes_fold (groupByKeyOf rgs) rgs Hnd)
    as [_ Hstart].
  { intros rg' Hrg'. by apply groupByKeyOf_lookup. }
  eexists. split; [by apply Hstart|]. split; [done|].
  intros j e Hj.
  destruct (buildEntryIndexes_facts (map rg_entries rgs)) as (-> & _).
  set (before := concat (map rg_entries (take i rgs))).
  assert (Hsplit : concat (map rg_entries rgs)
                   = before ++ rg_entries rg
                     ++ concat (map rg_entries (drop (S i) rgs))).
  { rewrite <- (take_drop_middle rgs i rg Hi) at 1.
    by rewrite map_app, concat_app. }
  rewrite Hsplit, map_app.
  rewrite lookup_app_r by (rewrite length_map; lia).
  rewrite length_map, Nat.add_comm, Nat.add_sub.
  rewrite map_app, lookup_app_l.
  - by rewrite list_lookup_fmap, Hj.
  - rewrite length_map. by eapply lookup_lt_Some.
Qed.

End CardIndexes.

Lemma columnCardIndexes_spec_witness :
  columnCardIndexes (H := Sample.host)
    (buildRenderedGroups Sample.board1 JsMap.empty) !! "done" = Some 2.
Proof.
  destruct (columnCardIndexes_spec (H := Sample.host)
              (buildRenderedGroups Sample.board1 JsMap.empty) 1
              {| group := Sample.grp "done" true [Sample.C];
                 rg_entries := [Sample.C] |})
    as (start & Hs & -> & _); [compute_done | reflexivity |].
  exact Hs.
Defined.

(** ** The element indexes *)

Lemma get_delete {V} (k k' : string) (m : JsMap.t V) :
  JsMap.get k' (jsMapDelete k m)
  = if decide (k' = k) then None else JsMap.get k' m.
Proof.
  unfold jsMapDelete. induction m as [|[k0 v0] m IH]; simpl.
  - by destruct (decide (k' = k)).
  - destruct (decide (k0 = k)) as [->|Hne].
    + rewrite filter_cons_False by (simpl; intros Hn; by apply Hn).
      rewrite IH. destruct (decide (k' = k)) as [->|Hk]; [done|].
      by rewrite decide_False.
    + rewrite filter_cons_True by done. simpl. rewrite IH.
      destruct (decide (k0 = k')) as [->|Hk0]; [|done].
      by rewrite decide_False.
Qed.

Lemma wf_delete {V} (k : string) (m : JsMap.t V) :
  JsMap.wf m → JsMap.wf (jsMapDelete k m).
Proof. intros Hwf. by apply wf_filter. Qed.

Section IndexFacts.
Context `{DomApi}.
Implicit Types (el : Element) (m : JsMap.t Element).

(** Indexing a list of elements under the key [f] reads off each. *)
Lemma indexAll_get (f : Element → option string) (els : list Element) m p :
  JsMap.get p (foldl (λ m el, indexUnder (f el) el m) m els)
  = match last (filter (λ el, f el = Some p ∧ 0 < String.length p) els) with
    | Some el => Some el
    | None => JsMap.get p m
    end.
Proof.
  induction els as [|el els IH] using rev_ind; [done|].
  rewrite foldl_snoc, filter_app, last_app, filter_cons, filter_nil.
  unfold indexUnder at 1.
  destruct (decide (f el = Some p ∧ 0 < String.length p)) as [[Hf Hlen]|Hno].
  - rewrite Hf, bool_decide_eq_true_2 by done. simpl. apply get_set_eq.
  - simpl. destruct (f el) as [k|] eqn:Hk; [|exact IH].
    destruct (decide (0 < String.length k)) as [Hlen|Hlen].
    + rewrite bool_decide_eq_true_2 by done.
      rewrite get_set_ne; [exact IH|]. intros ->. by apply Hno.
    + rewrite bool_decide_eq_false_2 by done. exact IH.
Qed.

Lemma indexAll_wf (f : Element → option string) (els : list Element) m :
  JsMap.wf m → JsMap.wf (foldl (λ m el, indexUnder (f el) el m) m els).
Proof.
  induction els as [|el els IH] using rev_ind; intros Hwf; [done|].
  rewrite foldl_snoc. unfold indexUnder at 1.
  destruct (f el) as [k|]; [|auto].
  destruct (bool_decide _); [|auto]. apply wf_set. auto.
Qed.

Lemma indexAll_keys (f : Element → option string) (els : list Element) m k :
  k ∈ JsMap.keys (foldl (λ m el, indexUnder (f el) el m) m els) →
  k ∈ JsMap.keys m ∨ (0 < String.length k ∧ ∃ el, el ∈ els ∧ f el = Some k).
Proof.
  rewrite <- !has_keys. unfold JsMap.has. rewrite indexAll_get.
  destruct (last _) as [el|] eqn:Hl; [|by left].
  intros _. right.
  assert (Hin : el ∈ filter (λ el, f el = Some k ∧ 0 < String.length k) els).
  { destruct (filter _ els) as [|y ys] using rev_ind; [done|].
    rewrite last_snoc in Hl. injection Hl as ->. apply elem_of_app. right. left. }
  apply list_elem_of_filter in Hin as [[Hf Hlen] Hin]. eauto.
Qed.

(** X28. The indexes built from the document hold each key once and no
    empty key; under a path the card index holds the last card element of
    the document that carries it, and a card whose path is not empty is
    always found. *)
Theorem buildElementIndexesFromDOM_spec (rootEl : Element) :
  let '(cardElByPath, columnElByKey) := buildElementIndexesFromDOM rootEl in
  JsMap.wf cardElByPath ∧ JsMap.wf columnElByKey
  ∧ (∀ k, k ∈ JsMap.keys cardElByPath ++ JsMap.keys columnElByKey →
          0 < String.length k)
  ∧ (∀ p, JsMap.get p cardElByPath
          = last (filter (λ el, cardPathOf el = Some p ∧ 0 < String.length p)
                         (queryCards rootEl)))
  ∧ (∀ el p, el ∈ queryCards rootEl → cardPathOf el = Some p →
             0 < String.length p → JsMap.has p cardElByPath = true).
Proof.
  unfold buildElementIndexesFromDOM. split_and!.
  - apply indexAll_wf, NoDup_nil_2.
  - apply indexAll_wf, NoDup_nil_2.
  - intros k [Hk|Hk]%elem_of_app; apply indexAll_keys in Hk as [Hk|[? _]];
      try done; by apply elem_of_nil in Hk.
  - intros p. rewrite indexAll_get. by destruct (last _).
  - intros el p Hel Hp Hlen. unfold JsMap.has. rewrite indexAll_get.
    assert (Hin : el ∈ filter (λ el, cardPathOf el = Some p
                                     ∧ 0 < String.length p)
                         (queryCards rootEl)) by by apply list_elem_of_filter.
    destruct (filter _ _) as [|y ys] using rev_ind;
      [by apply elem_of_nil in Hin|].
    by rewrite last_snoc.
Qed.

(** The paths that [clearCardIndexesForColumns] removes: those of the
    cards below the indexed columns of the given keys. *)
Lemma clearColumn_get m (cards : list Element) p :
  JsMap.get p (foldl (λ m cardEl,
                        match cardPathOf cardEl with
                        | Some path => jsMapDelete path m
                        | None => m
                        end) m cards)
  = if decide (Some p ∈ map cardPathOf cards) then None else JsMap.get p m.
Proof.
  induction cards as [|c cards IH] using rev_ind.
  - simpl. destruct (decide (Some p ∈ [])) as [Hin|]; [|done].
    by apply elem_of_nil in Hin.
  - rewrite foldl_snoc, map_app. simpl.
    assert (Hiff : Some p ∈ map cardPathOf cards ++ [cardPathOf c]
                   ↔ Some p ∈ map cardPathOf cards ∨ cardPathOf c = Some p).
    { rewrite elem_of_app, list_elem_of_singleton. split; intros [?|?]; auto. }
    destruct (cardPathOf c) as [q|] eqn:Hq.
    + rewrite get_delete, IH.
      destruct (decide (p = q)) as [->|Hne].
      * rewrite decide_True; [done|]. apply Hiff. by right.
      * destruct (decide (Some p ∈ map cardPathOf cards)) as [Hin|Hn].
        -- rewrite decide_True; [done|]. apply Hiff. by left.
        -- rewrite decide_False; [done|]. rewrite Hiff. intros [?|[= ?]]; done.
    + rewrite IH.
      destruct (decide (Some p ∈ map cardPathOf cards)) as [Hin|Hn].
      * rewrite decide_True; [done|]. apply Hiff. by left.
      * rewrite decide_False; [done|]. rewrite Hiff. intros [?|?]; done.
Qed.

(** X29. [clearCardIndexesForColumns] removes from the card index exactly
    the paths carried by the cards below the indexed columns of the given
    keys; a key without an indexed column is passed over, and every other
    path stays. *)
Theorem clearCardIndexesForColumns_get m (columnKeys : list string)
    (columnElByKey : JsMap.t Element) (p : string) :
  JsMap.get p (clearCardIndexesForColumns m columnKeys columnElByKey)
  = if decide (Some p ∈ map cardPathOf
                 (concat (map queryCards
                            (omap (λ k, JsMap.get k columnElByKey) columnKeys))))
    then None else JsMap.get p m.
Proof.
  unfold clearCardIndexesForColumns.
  induction columnKeys as [|k ks IH] using rev_ind.
  - simpl. destruct (decide (Some p ∈ [])) as [Hin|]; [|done].
    by apply elem_of_nil in Hin.
  - rewrite foldl_snoc, omap_app. csimpl.
    destruct (JsMap.get k columnElByKey) as [columnEl|]; csimpl.
    + rewrite clearColumn_get, IH, map_app, concat_app, map_app. simpl.
      rewrite app_nil_r.
      destruct (decide (Some p ∈ map cardPathOf (queryCards columnEl))) as [Hc|Hc],
        (decide (Some p ∈ map cardPathOf (concat (map queryCards
                   (omap (λ k, JsMap.get k columnElByKey) ks))))) as [Hk|Hk].
      all: destruct (decide (Some p ∈ _ ++ _)) as [Hin|Hn]; try done.
      all: try (exfalso; apply Hn; apply elem_of_app; tauto).
      apply elem_of_app in Hin as [?|?]; done.
    + by rewrite app_nil_r.
Qed.

Lemma dropStale_fold (entries acc : JsMap.t Element) (stale : nat) :
  foldl (λ '(m, stale) '(path, cardEl),
           if negb (isConnected cardEl) then (jsMapDelete path m, stale + 1)
           else if negb (bool_decide (cardPathOf cardEl = Some path))
           then (jsMapDelete path m, stale + 1)
           else (m, stale))
        (acc, stale) entries
  = (filter (λ kv, kv.1 ∉ (filter (λ kv, ¬ goodEntry kv) entries).*1) acc,
     stale + length (filter (λ kv, ¬ goodEntry kv) entries)).
Proof.
  revert acc stale.
  induction entries as [|[path el] entries IH]; intros acc stale; cbn [foldl].
  - rewrite filter_all, Nat.add_0_r; [done|]. intros kv _. apply not_elem_of_nil.
  - assert (Hdel : ∀ bad : list string,
      filter (λ kv : string * Element, kv.1 ∉ bad) (jsMapDelete path acc)
      = filter (λ kv, kv.1 ∉ path :: bad) acc).
    { intros bad. unfold jsMapDelete. rewrite list_filter_filter.
      apply list_filter_iff. intros kv. rewrite not_elem_of_cons. tauto. }
    destruct (isConnected el) eqn:Hc; simpl.
    + destruct (decide (cardPathOf el = Some path)) as [Hp|Hp].
      * rewrite bool_decide_eq_true_2 by done. simpl. rewrite IH.
        rewrite (filter_cons_False _ (path, el)); [done|].
        intros Hbad. apply Hbad. by split.
      * rewrite bool_decide_eq_false_2 by done. simpl. rewrite IH.
        rewrite (filter_cons_True _ (path, el)) by (by intros [_ ?]).
        csimpl. rewrite Hdel. f_equal. lia.
    + rewrite IH.
      rewrite (filter_cons_True _ (path, el)) by (intros [Hc' _]; simpl in Hc'; congruence).
      csimpl. rewrite Hdel. f_equal. lia.
Qed.

Lemma dropStaleCards_eq m :
  JsMap.wf m →
  dropStaleCards m = (filter goodEntry m, length m - length (filter goodEntry m)).
Proof.
  intros Hwf. unfold dropStaleCards. rewrite dropStale_fold. f_equal.
  - apply filter_ext_elem. intros [k v] Hin. simpl. split.
    + intros Hn. destruct (decide (goodEntry (k, v))) as [|Hbad]; [done|].
      exfalso. apply Hn. apply list_elem_of_fmap. exists (k, v).
      split; [done|]. by apply list_elem_of_filter.
    + intros Hgood Hk.
      apply list_elem_of_fmap in Hk as ([k' v'] & Hk & [Hbad Hin']%list_elem_of_filter).
      simpl in Hk. subst k'.
      assert (v' = v) as ->; [|done].
      apply elem_get_wf in Hin, Hin'; [|done..]. congruence.
  - simpl. pose proof (filter_app_complement goodEntry m) as Hperm.
    apply Permutation_length in Hperm. rewrite length_app in Hperm. lia.
Qed.

Lemma findMissingColumns_eq (columnElByKey : JsMap.t Element) :
  JsMap.wf columnElByKey →
  findMissingColumns columnElByKey
  = (filter (λ kv, isConnected kv.2 = false) columnElByKey).*1.
Proof.
  intros Hwf. unfold findMissingColumns, JsMap.keys.
  enough (Hgen : ∀ (l : JsMap.t Element) (missing : list string),
    (∀ kv, kv ∈ l → JsMap.get kv.1 columnElByKey = Some kv.2) →
    foldl (λ missing columnKey,
             match JsMap.get columnKey columnElByKey with
             | None => missing ++ [columnKey]
             | Some columnEl =>
                 if negb (isConnected columnEl) then missing ++ [columnKey]
                 else missing
             end) missing l.*1
    = missing ++ (filter (λ kv, isConnected kv.2 = false) l).*1).
  { rewrite Hgen; [done|]. intros [k v] Hin. by apply elem_get_wf. }
  induction l as [|[k v] l IH]; intros missing Hl; csimpl.
  - by rewrite app_nil_r.
  - pose proof (Hl (k, v) ltac:(left)) as Hkv. simpl in Hkv. rewrite Hkv.
    rewrite IH by (intros kv' Hkv'; apply Hl; by right).
    destruct (isConnected v) eqn:Hc; simpl.
    + by rewrite filter_cons_False by (simpl; congruence).
    + rewrite filter_cons_True by done. csimpl. by rewrite <- app_assoc.
Qed.

(** X30. Reconciling keeps exactly the entries whose element is attached and
    carries the path it is indexed under, and counts the others; the
    missing columns are the indexed columns that are detached; a
    consistent report means that nothing was removed; and reconciling once
    more removes nothing and finds nothing stale. *)
Theorem reconcileCardElementIndexes_spec
    (cardElByPath columnElByKey : JsMap.t Element) (entryPaths : gset string) :
  JsMap.wf cardElByPath → JsMap.wf columnElByKey →
  let '(cards, report) :=
    reconcileCardElementIndexes cardElByPath columnElByKey entryPaths in
  cards = filter goodEntry cardElByPath
  ∧ staleCardReferences report = length cardElByPath - length cards
  ∧ missingColumns report
    = (filter (λ kv, isConnected kv.2 = false) columnElByKey).*1
  ∧ (isConsistent report = true → cards = cardElByPath)
  ∧ (reconcileCardElementIndexes cards columnElByKey entryPaths).1 = cards
  ∧ staleCardReferences
      (reconcileCardElementIndexes cards columnElByKey entryPaths).2 = 0.
Proof.
  intros Hwf Hcols. unfold reconcileCardElementIndexes.
  rewrite (dropStaleCards_eq _ Hwf).
  assert (Hwf' : JsMap.wf (filter goodEntry cardElByPath)).
  { by apply wf_filter. }
  rewrite (dropStaleCards_eq _ Hwf').
  assert (Hidem : filter goodEntry (filter goodEntry cardElByPath)
                  = filter goodEntry cardElByPath).
  { apply filter_all. by intros kv [? _]%list_elem_of_filter. }
  rewrite Hidem. simpl.
  split; [done|]. split; [done|]. split; [by apply findMissingColumns_eq|].
  split; [|split; [done | lia]].
  intros [[Hstale _]%andb_prop _]%andb_prop.
  apply bool_decide_eq_true in Hstale.
  pose proof (filter_app_complement goodEntry cardElByPath) as Hperm.
  apply Permutation_length in Hperm. rewrite length_app in Hperm.
  apply filter_all. intros kv Hin.
  destruct (decide (goodEntry kv)) as [|Hbad]; [done|exfalso].
  assert (Hb : kv ∈ filter (λ x, ¬ goodEntry x) cardElByPath)
    by by apply list_elem_of_filter.
  destruct (filter (λ x, ¬ goodEntry x) cardElByPath);
    [by apply elem_of_nil in Hb | simpl in Hperm; lia].
Qed.

End IndexFacts.

Lemma reconcileCardElementIndexes_spec_witness :
  (reconcileCardElementIndexes (H := SampleDom.dom)
     [("A.md", SampleDom.Card true (Some "A.md"));
      ("B.md", SampleDom.Card false (Some "B.md"));
      ("C.md", SampleDom.Card true (Some "moved.md"))]
     [("todo", SampleDom.Column true (Some "todo") [(true, Some "A.md")]);
      ("gone", SampleDom.Column false (Some "gone") [])]
     {["A.md"]}).1
  = [("A.md", SampleDom.Card true (Some "A.md"))].
Proof.
  pose proof (reconcileCardElementIndexes_spec (H := SampleDom.dom)
     [("A.md", SampleDom.Card true (Some "A.md"));
      ("B.md", SampleDom.Card false (Some "B.md"));
      ("C.md", SampleDom.Card true (Some "moved.md"))]
     [("todo", SampleDom.Column true (Some "todo") [(true, Some "A.md")]);
      ("gone", SampleDom.Column false (Some "gone") [])]
     {["A.md"]}) as Hspec.
  destruct (reconcileCardElementIndexes _ _ _) as [cards report].
  destruct Hspec as (-> & _); [unfold JsMap.wf; compute_done..|].
  reflexivity.
Defined.


(** ** The sample board, end to end *)

(** The first render of a board is a full one; the same data again is
    skipped; one more card in a column is a partial render of that column;
    a new column is a full render again. *)
Example sample_first_render_full :
  (render Sample.hasConfiguredGroupBy (Sample.input Sample.board1)
     (newView "session")).2 = Full.
Proof. reflexivity. Qed.

Example sample_same_data_skipped :
  (render Sample.hasConfiguredGroupBy (Sample.input Sample.board1)
     Sample.rendered1).2 = Skip.
Proof. reflexivity. Qed.

Example sample_added_card_partial :
  (render Sample.hasConfiguredGroupBy
     (Sample.input
        [Sample.grp "todo" true
           [Sample.A; Sample.B; Sample.entry "D.md" "w"];
         Sample.grp "done" true [Sample.C]])
     Sample.rendered1).2 = Partial ["todo"].
Proof. reflexivity. Qed.

Example sample_new_column_full :
  (render Sample.hasConfiguredGroupBy
     (Sample.input
        [Sample.grp "todo" true [Sample.A; Sample.B];
         Sample.grp "done" true [Sample.C];
         Sample.grp "later" true [Sample.entry "D.md" "w"]])
     Sample.rendered1).2 = Full.
Proof. reflexivity. Qed.

Example sample_merge_keys :
  map columnKeyOf
    (mergeGroupsByColumnKey (H := Sample.host)
       [Sample.grp "a" false [Sample.A]; Sample.grp "b" true [Sample.B];
        Sample.grp "a" true [Sample.C]])
  = ["a"; "b"].
Proof. reflexivity. Qed.

Example toString36_samples :
  toString36 0 = "0" ∧ toString36 35 = "z" ∧ toString36 36 = "10"
  ∧ toString36 (-37) = "-11" ∧ toString36 2147483647 = "zik0zj".
Proof. by vm_compute. Qed.

Example hashStep_wraps : hashStep 2147483647 1 = 2147483618%Z.
Proof. reflexivity. Qed.
